(** * galax: multipole potentials, Lagrange points and composite
      phase-space positions

    A shallow embedding of

    - [galax/potential/_src/builtin/multipole.py]
    - [galax/dynamics/_src/cluster/register_funcs.py]
    - [galax/coordinates/_psp/base_composite.py]

    The numerical code is written once, over an arithmetic carrier [F]
    (class [Arith]).  Two carriers are provided: IEEE-754 binary64 as
    specified by [SpecFloat] (what JAX computes with, x64 enabled) and the
    real numbers (the exact-arithmetic reading of the formulas). *)

From Stdlib Require Import ZArith List String Bool Lia DecimalString.
From Stdlib Require Import Reals Lra.
From Stdlib Require Import SpecFloat.
Import ListNotations.

Set Implicit Arguments.

(* ================================================================= *)
(** * Python outcomes: a value or a raised exception *)

Inductive exn : Type :=
| ValueError (msg : string)
| IndexError.

Inductive outcome (A : Type) : Type :=
| Returned (a : A)
| Raised (e : exn).

Arguments Returned {A} a.
Arguments Raised {A} e.

Definition bind {A B : Type} (m : outcome A) (k : A -> outcome B) : outcome B :=
  match m with
  | Returned a => k a
  | Raised e => Raised e
  end.

Notation "x <- m ;; k" := (bind m (fun x => k))
  (at level 61, m at next level, right associativity).


(** [mapM f xs] runs [f] on the elements from left to right and stops at the
    first exception. *)
Fixpoint mapM {A B : Type} (f : A -> outcome B) (xs : list A) : outcome (list B) :=
  match xs with
  | [] => Returned []
  | x :: xs' => y <- f x ;; ys <- mapM f xs' ;; Returned (y :: ys)
  end.

(* ================================================================= *)
(** * Arithmetic carrier *)

(** The operations of [jax.numpy] that the sources apply to array elements
    and that IEEE-754 defines: [+], [-], [*], [/] and [sqrt]. *)
Class Arith (F : Type) : Type := {
  fzero : F;
  fadd : F -> F -> F;
  fsub : F -> F -> F;
  fmul : F -> F -> F;
  fdiv : F -> F -> F;
  fsqrt : F -> F
}.

(** Exact real arithmetic. *)
#[export] Instance R_arith : Arith R := {|
  fzero := 0%R;
  fadd := Rplus;
  fsub := Rminus;
  fmul := Rmult;
  fdiv := Rdiv;
  fsqrt := sqrt
|}.

(** IEEE-754 binary64, round to nearest even. *)
Definition binary64 : Type := spec_float.
Definition prec64 : Z := 53.
Definition emax64 : Z := 1024.

#[export] Instance binary64_arith : Arith binary64 := {|
  fzero := S754_zero false;
  fadd := SFadd prec64 emax64;
  fsub := SFsub prec64 emax64;
  fmul := SFmul prec64 emax64;
  fdiv := SFdiv prec64 emax64;
  fsqrt := SFsqrt prec64 emax64
|}.

(** The binary64 value nearest to the integer [n]. *)
Definition b64_of_Z (n : Z) : binary64 := binary_normalize prec64 emax64 n 0 false.

(** [jnp.isfinite]. *)
Definition is_finite (x : binary64) : bool :=
  match x with
  | S754_zero _ | S754_finite _ _ _ => true
  | S754_infinity _ | S754_nan => false
  end.

(* ================================================================= *)
(** * Arrays of shape (3,) *)

Record Vec3 (F : Type) : Type := mkVec3 { vx : F; vy : F; vz : F }.

Arguments mkVec3 {F} vx vy vz.

Section Vectors.
Context {F : Type} {arith : Arith F}.

(** Element-wise [x - y], [x + y] on shape (3,). *)
Definition vsub (a b : Vec3 F) : Vec3 F :=
  mkVec3 (fsub (vx a) (vx b)) (fsub (vy a) (vy b)) (fsub (vz a) (vz b)).

Definition vadd (a b : Vec3 F) : Vec3 F :=
  mkVec3 (fadd (vx a) (vx b)) (fadd (vy a) (vy b)) (fadd (vz a) (vz b)).

(** Broadcast of a shape-() scalar against shape (3,): [a * k], [a / k]. *)
Definition vscale (a : Vec3 F) (k : F) : Vec3 F :=
  mkVec3 (fmul (vx a) k) (fmul (vy a) k) (fmul (vz a) k).

Definition vdivs (a : Vec3 F) (k : F) : Vec3 F :=
  mkVec3 (fdiv (vx a) k) (fdiv (vy a) k) (fdiv (vz a) k).

(** [jnp.linalg.vector_norm(q, axis=-1)]: the Euclidean norm. *)
Definition vector_norm (q : Vec3 F) : F :=
  fsqrt (fadd (fadd (fmul (vx q) (vx q)) (fmul (vy q) (vy q)))
              (fmul (vz q) (vz q))).

(** [coordinax.vecs.normalize_vector]: [x / norm(x)]. *)
Definition normalize_vector (x : Vec3 F) : Vec3 F :=
  vdivs x (vector_norm x).
End Vectors.

(* ================================================================= *)
(** * Cluster functions: [register_funcs.py] *)

Record L1L2LagrangePoints (F : Type) : Type :=
  mkL1L2 { l1 : Vec3 F; l2 : Vec3 F }.

Arguments mkL1L2 {F} l1 l2.

(** A time array whose axes all have length one ([w.t] of a phase-space
    coordinate holding a single point): shape [()], [(1,)], [(1, 1)], ... *)
Inductive UnitArray (F : Type) : Type :=
| Bare (t : F)
| Wrapped (inner : UnitArray F).

Arguments Bare {F} t.
Arguments Wrapped {F} inner.

(** [t.squeeze()] drops every axis of length one. *)
Fixpoint squeeze {F : Type} (a : UnitArray F) : F :=
  match a with
  | Bare t => t
  | Wrapped inner => squeeze inner
  end.

Section Cluster.
Context {F : Type} {arith : Arith F}.

(** The host potential, and the coordinax vector classes, are used through
    their interfaces only. *)
Variable Potential : Type.
Variable AbstractPos3D AbstractVel3D : Type.

(** [plum.convert(_, unxt.Quantity)] on a coordinax vector: its Cartesian
    components as an array of shape (3,). *)
Variable pos_to_quantity : AbstractPos3D -> Vec3 F.
Variable vel_to_quantity : AbstractVel3D -> Vec3 F.

(** [tidal_radius_king1962] is imported from [.radius]; it is used through
    its signature only. *)
Variable tidal_radius_king1962 :
  Potential -> Vec3 F -> Vec3 F -> F -> F -> F.

(** [x: gt.LengthSz3 | cx.vecs.AbstractPos3D] and
    [v: gt.SpeedSz3 | cx.vecs.AbstractVel3D]. *)
Inductive PosArg : Type :=
| PosQuantity (q : Vec3 F)
| PosVector (q : AbstractPos3D).

Inductive VelArg : Type :=
| VelQuantity (p : Vec3 F)
| VelVector (p : AbstractVel3D).

(** [convert(x, u.Quantity)]: a quantity is returned as it is. *)
Definition convert_pos (x : PosArg) : Vec3 F :=
  match x with
  | PosQuantity q => q
  | PosVector q => pos_to_quantity q
  end.

Definition convert_vel (v : VelArg) : Vec3 F :=
  match v with
  | VelQuantity p => p
  | VelVector p => vel_to_quantity p
  end.

(** [lagrange_points(potential, x, v, /, *, mass, t)]. *)
Definition lagrange_points (potential : Potential) (x : PosArg) (v : VelArg)
    (mass t : F) : L1L2LagrangePoints F :=
  let x := convert_pos x in
  let v := convert_vel v in
  let r_t := tidal_radius_king1962 potential x v mass t in
  let r_hat := normalize_vector x in
  let l1 := vsub x (vscale r_hat r_t) in  (* close *)
  let l2 := vadd x (vscale r_hat r_t) in  (* far *)
  mkL1L2 l1 l2.

(** [coordinax.Space], read at its two keys ["length"] and ["speed"]. *)
Record Space : Type := mkSpace {
  space_length : AbstractPos3D;
  space_speed : AbstractVel3D
}.

(** [coordinax.Coordinate]: data in a reference frame. *)
Variable Frame : Type.
Record Coordinate : Type := mkCoordinate {
  coord_data : Space;
  coord_frame : Frame
}.

(** [galax.coordinates.PhaseSpaceCoordinate(q, p, t)]. *)
Record PhaseSpaceCoordinate : Type := mkPSC {
  psc_q : AbstractPos3D;
  psc_p : AbstractVel3D;
  psc_t : UnitArray F
}.

(** [galax.coordinates.PhaseSpacePosition(q, p)]. *)
Record PhaseSpacePosition : Type := mkPSP {
  psp_q : AbstractPos3D;
  psp_p : AbstractVel3D
}.

(** [lagrange_points(pot, space, /, *, mass, t)]. *)
Definition lagrange_points_space (pot : Potential) (space : Space)
    (mass t : F) : L1L2LagrangePoints F :=
  lagrange_points pot (PosVector (space_length space))
                  (VelVector (space_speed space)) mass t.

(** [lagrange_points(pot, coord, /, *, mass, t)]. *)
Definition lagrange_points_coord (pot : Potential) (coord : Coordinate)
    (mass t : F) : L1L2LagrangePoints F :=
  lagrange_points_space pot (coord_data coord) mass t.

(** [lagrange_points(pot, w: AbstractPhaseSpaceCoordinate, /, *, mass)]. *)
Definition lagrange_points_psc (pot : Potential) (w : PhaseSpaceCoordinate)
    (mass : F) : L1L2LagrangePoints F :=
  lagrange_points pot (PosVector (psc_q w)) (VelVector (psc_p w)) mass
                  (squeeze (psc_t w)).

(** [lagrange_points(pot, w: PhaseSpacePosition, /, *, mass, time)]. *)
Definition lagrange_points_psp (pot : Potential) (w : PhaseSpacePosition)
    (mass time : F) : L1L2LagrangePoints F :=
  lagrange_points pot (PosVector (psp_q w)) (VelVector (psp_p w)) mass time.
End Cluster.

(* ================================================================= *)
(** * Multipole potentials: [multipole.py] *)

(** ** Arrays and shapes *)

(** A JAX array: its [shape] tuple and its elements in row-major order. *)
Record ndarray (F : Type) : Type := mkArray {
  shape : list nat;
  data : list F
}.

Arguments mkArray {F} shape data.

(** Equality of shape tuples ([!=] is its negation). *)
Fixpoint shape_eqb (s1 s2 : list nat) : bool :=
  match s1, s2 with
  | [], [] => true
  | n1 :: r1, n2 :: r2 => Nat.eqb n1 n2 && shape_eqb r1 r2
  | _, _ => false
  end.

(** [str] of a tuple of ints, as an f-string prints it. *)
Definition str_nat (n : nat) : string := NilZero.string_of_uint (Nat.to_uint n).

Definition str_shape (s : list nat) : string :=
  match s with
  | [] => "()"
  | [n] => "(" ++ str_nat n ++ ",)"
  | _ => "(" ++ String.concat ", " (map str_nat s) ++ ")"
  end.

(** [numpy.tri(n, m, k, dtype=bool)]: true at and below the [k]-th diagonal
    (with [k = 0] here). *)
Definition tri (i j : nat) : bool := Nat.leb j i.

(** [jnp.tril_indices(n)]: the row and column indices, in row-major order,
    of the true entries of [tri(n, n)]. *)
Definition tril_pairs (n : nat) : list (nat * nat) :=
  filter (fun ij => tri (fst ij) (snd ij)) (list_prod (seq 0 n) (seq 0 n)).

Definition tril_indices (n : nat) : list nat * list nat := List.split (tril_pairs n).

(** Element-wise binary and ternary operations on equal-length batches. *)
Fixpoint map2 {A B C : Type} (f : A -> B -> C) (xs : list A) (ys : list B) : list C :=
  match xs, ys with
  | x :: xs', y :: ys' => f x y :: map2 f xs' ys'
  | _, _ => []
  end.

Fixpoint map3 {A B C D : Type} (f : A -> B -> C -> D)
    (xs : list A) (ys : list B) (zs : list C) : list D :=
  match xs, ys, zs with
  | x :: xs', y :: ys', z :: zs' => f x y z :: map3 f xs' ys' zs'
  | _, _, _ => []
  end.

(** The special functions of JAX that the potentials call. *)
Class Special (F : Type) : Type := {
  (** [jnp.pow(s, n)] for an integer exponent. *)
  fpow : F -> Z -> F;
  facos : F -> F;
  fatan2 : F -> F -> F;
  (** [jax.scipy.special.sph_harm(m, n, theta, phi, n_max)] at one point:
      order, degree, azimuthal angle, polar angle; the complex value as
      (real part, imaginary part). *)
  sph_harm : nat -> nat -> F -> F -> nat -> F * F
}.

(** A position argument [xyz] with [xyz.ndim == 1] (one point) or
    [xyz.ndim == 2] (a batch of points), and the potential values returned
    for it (shape [()] or [(N,)]). *)
Inductive Positions (F : Type) : Type :=
| Single (q : Vec3 F)
| Batch (qs : list (Vec3 F)).

Arguments Single {F} q.
Arguments Batch {F} qs.

Inductive FieldValue (F : Type) : Type :=
| Scalar (y : F)
| Values (ys : list F).

Arguments Scalar {F} y.
Arguments Values {F} ys.

Section Multipole.
Context {F : Type} {arith : Arith F} {special : Special F}.

(** An [AbstractParameter]: called with a time, it returns its value. *)
Definition AbstractParameter (V : Type) : Type := F -> V.

(** A parameter given as a plain array is constant in time. *)
Definition ConstantParameter {V : Type} (v : V) : AbstractParameter V := fun _ => v.

(** [Slm[l, m]].  JAX clamps an out-of-range index into the array.  An
    array with fewer than two axes cannot be indexed twice (IndexError);
    one with more than two axes does not hold scalars at [l, m] and is
    reported the same way. *)
Definition getitem2 (a : ndarray F) (l m : nat) : outcome F :=
  match shape a with
  | [r; c] =>
      Returned (nth (Nat.min l (r - 1) * c + Nat.min m (c - 1)) (data a) fzero)
  | _ => Raised IndexError
  end.

(** The entry [l, m] of an [(r, c)] array, for [l < r] and [m < c]. *)
Definition item (a : ndarray F) (l m : nat) : F :=
  nth (l * nth 1 (shape a) 0%nat + m) (data a) fzero.

(** ** The three classes *)

(** Fields of [AbstractMultipolePotential], with [constants["G"].value]. *)
Record MultipoleInnerPotential : Type := mkInner {
  in_G : F;
  in_m_tot : AbstractParameter F;
  in_r_s : AbstractParameter F;
  in_l_max : nat;
  in_Slm : AbstractParameter (ndarray F);
  in_Tlm : AbstractParameter (ndarray F)
}.

Record MultipoleOuterPotential : Type := mkOuter {
  out_G : F;
  out_m_tot : AbstractParameter F;
  out_r_s : AbstractParameter F;
  out_l_max : nat;
  out_Slm : AbstractParameter (ndarray F);
  out_Tlm : AbstractParameter (ndarray F)
}.

Record MultipolePotential : Type := mkMultipole {
  mp_G : F;
  mp_m_tot : AbstractParameter F;
  mp_r_s : AbstractParameter F;
  mp_l_max : nat;
  mp_ISlm : AbstractParameter (ndarray F);
  mp_ITlm : AbstractParameter (ndarray F);
  mp_OSlm : AbstractParameter (ndarray F);
  mp_OTlm : AbstractParameter (ndarray F)
}.

(** ** [__check_init__] *)

Definition lm_shape (l_max : nat) : list nat := [l_max + 1; l_max + 1]%nat.

Definition msg_SlmTlm (s_shape t_shape : list nat) : string :=
  "Slm and Tlm must have the shape (l_max + 1, l_max + 1)."
  ++ "Slm shape: " ++ str_shape s_shape ++ ", Tlm shape: " ++ str_shape t_shape.

Definition msg_IOSlm : string :=
  "I/OSlm and I/OTlm must have the shape (l_max + 1, l_max + 1).".

Definition check_init_inner (self : MultipoleInnerPotential) : outcome unit :=
  let shp := lm_shape (in_l_max self) in
  let t := fzero in
  let s_shape := shape (in_Slm self t) in
  let t_shape := shape (in_Tlm self t) in
  if negb (shape_eqb s_shape shp) || negb (shape_eqb t_shape shp)
  then Raised (ValueError (msg_SlmTlm s_shape t_shape))
  else Returned tt.

Definition check_init_outer (self : MultipoleOuterPotential) : outcome unit :=
  let shp := lm_shape (out_l_max self) in
  let t := fzero in
  let s_shape := shape (out_Slm self t) in
  let t_shape := shape (out_Tlm self t) in
  if negb (shape_eqb s_shape shp) || negb (shape_eqb t_shape shp)
  then Raised (ValueError (msg_SlmTlm s_shape t_shape))
  else Returned tt.

Definition check_init_multipole (self : MultipolePotential) : outcome unit :=
  let shp := lm_shape (mp_l_max self) in
  let t := fzero in
  let is_shape := shape (mp_ISlm self t) in
  let it_shape := shape (mp_ITlm self t) in
  let os_shape := shape (mp_OSlm self t) in
  let ot_shape := shape (mp_OTlm self t) in
  if negb (shape_eqb is_shape shp)
     || negb (shape_eqb it_shape shp)
     || negb (shape_eqb os_shape shp)
     || negb (shape_eqb ot_shape shp)
  then Raised (ValueError msg_IOSlm)
  else Returned tt.

(** Construction: the dataclass [__init__] stores the fields, then
    [__check_init__] runs; the object exists only if it returns. *)
Definition new_inner (G : F) (m_tot r_s : AbstractParameter F) (l_max : nat)
    (Slm Tlm : AbstractParameter (ndarray F)) : outcome MultipoleInnerPotential :=
  let self := mkInner G m_tot r_s l_max Slm Tlm in
  _ <- check_init_inner self ;; Returned self.

Definition new_outer (G : F) (m_tot r_s : AbstractParameter F) (l_max : nat)
    (Slm Tlm : AbstractParameter (ndarray F)) : outcome MultipoleOuterPotential :=
  let self := mkOuter G m_tot r_s l_max Slm Tlm in
  _ <- check_init_outer self ;; Returned self.

Definition new_multipole (G : F) (m_tot r_s : AbstractParameter F) (l_max : nat)
    (ISlm ITlm OSlm OTlm : AbstractParameter (ndarray F)) : outcome MultipolePotential :=
  let self := mkMultipole G m_tot r_s l_max ISlm ITlm OSlm OTlm in
  _ <- check_init_multipole self ;; Returned self.

(** ** Helper functions *)

(** [cartesian_to_normalized_spherical(q, r_s)] on a batch [q]. *)
Definition cartesian_to_normalized_spherical (q : list (Vec3 F)) (r_s : F)
    : list F * list F * list F :=
  let r := map vector_norm q in
  let s := map (fun ri => fdiv ri r_s) r in
  let theta := map2 (fun qi ri => facos (fdiv (vz qi) ri)) q r in
  let phi := map (fun qi => fatan2 (vy qi) (vx qi)) q in
  (s, theta, phi).

(** [compute_Ylm(l, m, theta, phi, l_max=l_max)]. *)
Definition compute_Ylm (l m : nat) (theta phi : list F) (l_max : nat)
    : list F * list F :=
  let Ylm := map2 (fun ph th => sph_harm m l ph th l_max) phi theta in
  (map fst Ylm, map snd Ylm).

(** [jnp.sum(rows, axis=0)] for rows of length [n]. *)
Definition sum_axis0 (n : nat) (rows : list (list F)) : list F :=
  fold_left (map2 fadd) rows (repeat fzero n).

(** [jnp.atleast_2d(xyz)] and [xyz.ndim == 1]. *)
Definition atleast_2d (xyz : Positions F) : list (Vec3 F) :=
  match xyz with
  | Single q => [q]
  | Batch qs => qs
  end.

Definition is_scalar (xyz : Positions F) : bool :=
  match xyz with
  | Single _ => true
  | Batch _ => false
  end.

(** The tail shared by the three [_potential] methods:
    [if is_scalar: summation = summation[0]] and
    [return G * m_tot / r_s * summation]. *)
Definition finish (scalar : bool) (G m_tot r_s : F) (summation : list F)
    : outcome (FieldValue F) :=
  let k := fdiv (fmul G m_tot) r_s in
  if scalar then
    match summation with
    | y :: _ => Returned (Scalar (fmul k y))
    | [] => Raised IndexError
    end
  else Returned (Values (map (fun y => fmul k y) summation)).

(** [jnp.sum(jax.vmap(summand, in_axes=(0, 0))(ls, ms), axis=0)]. *)
Definition summation_over (n : nat) (summand : nat -> nat -> outcome (list F))
    (ls ms : list nat) : outcome (list F) :=
  rows <- mapM (fun lm => summand (fst lm) (snd lm)) (combine ls ms) ;;
  Returned (sum_axis0 n rows).

(** ** [_potential] *)

Definition inner_potential (self : MultipoleInnerPotential)
    (xyz : Positions F) (t : F) : outcome (FieldValue F) :=
  let m_tot := in_m_tot self t in
  let r_s := in_r_s self t in
  let Slm := in_Slm self t in
  let Tlm := in_Tlm self t in
  let scalar := is_scalar xyz in
  let '(s, theta, phi) := cartesian_to_normalized_spherical (atleast_2d xyz) r_s in
  let l_max := in_l_max self in
  let '(ls, ms) := tril_indices (l_max + 1) in
  let summand (l m : nat) : outcome (list F) :=
    let '(cPlm, sPlm) := compute_Ylm l m theta phi l_max in
    Slm_lm <- getitem2 Slm l m ;;
    Tlm_lm <- getitem2 Tlm l m ;;
    Returned (map3 (fun si c sn =>
                      fmul (fpow si (Z.of_nat l))
                           (fadd (fmul Slm_lm c) (fmul Tlm_lm sn)))
                   s cPlm sPlm) in
  summation <- summation_over (List.length s) summand ls ms ;;
  finish scalar (in_G self) m_tot r_s summation.

Definition outer_potential (self : MultipoleOuterPotential)
    (xyz : Positions F) (t : F) : outcome (FieldValue F) :=
  let m_tot := out_m_tot self t in
  let r_s := out_r_s self t in
  let Slm := out_Slm self t in
  let Tlm := out_Tlm self t in
  let scalar := is_scalar xyz in
  let '(s, theta, phi) := cartesian_to_normalized_spherical (atleast_2d xyz) r_s in
  let l_max := out_l_max self in
  let '(ls, ms) := tril_indices (l_max + 1) in
  let summand (l m : nat) : outcome (list F) :=
    let '(cPlm, sPlm) := compute_Ylm l m theta phi l_max in
    Slm_lm <- getitem2 Slm l m ;;
    Tlm_lm <- getitem2 Tlm l m ;;
    Returned (map3 (fun si c sn =>
                      fmul (fpow si (- (Z.of_nat l + 1)))
                           (fadd (fmul Slm_lm c) (fmul Tlm_lm sn)))
                   s cPlm sPlm) in
  summation <- summation_over (List.length s) summand ls ms ;;
  finish scalar (out_G self) m_tot r_s summation.

Definition multipole_potential (self : MultipolePotential)
    (xyz : Positions F) (t : F) : outcome (FieldValue F) :=
  let m_tot := mp_m_tot self t in
  let r_s := mp_r_s self t in
  let ISlm := mp_ISlm self t in
  let ITlm := mp_ITlm self t in
  let OSlm := mp_OSlm self t in
  let OTlm := mp_OTlm self t in
  let scalar := is_scalar xyz in
  let '(s, theta, phi) := cartesian_to_normalized_spherical (atleast_2d xyz) r_s in
  let l_max := mp_l_max self in
  let '(ls, ms) := tril_indices (l_max + 1) in
  let summand (l m : nat) : outcome (list F) :=
    let '(cPlm, sPlm) := compute_Ylm l m theta phi l_max in
    IS <- getitem2 ISlm l m ;;
    IT <- getitem2 ITlm l m ;;
    OS <- getitem2 OSlm l m ;;
    OT <- getitem2 OTlm l m ;;
    Returned (map3 (fun si c sn =>
                      let inner := fmul (fpow si (Z.of_nat l))
                                        (fadd (fmul IS c) (fmul IT sn)) in
                      let outer := fmul (fpow si (- Z.of_nat l - 1))
                                        (fadd (fmul OS c) (fmul OT sn)) in
                      fadd inner outer)
                   s cPlm sPlm) in
  summation <- summation_over (List.length s) summand ls ms ;;
  finish scalar (mp_G self) m_tot r_s summation.
End Multipole.

(** ** The expansions as the documentation writes them *)

Section MultipoleFormulas.
Context {F : Type} {arith : Arith F} {special : Special F}.

(** Normalized spherical coordinates [(s, theta, phi)] of one point:
    [s = r / r_s], [theta = acos(z / r)], [phi = atan2(y, x)]. *)
Definition spherical_point (q : Vec3 F) (r_s : F) : F * F * F :=
  let r := vector_norm q in
  (fdiv r r_s, facos (fdiv (vz q) r), fatan2 (vy q) (vx q)).

(** The sum over all [(l, m)] with [0 <= m <= l <= l_max], accumulated
    from zero with [l] ascending and, for each [l], [m] ascending. *)
Definition double_sum (l_max : nat) (term : nat -> nat -> F) : F :=
  fold_left
    (fun acc l => fold_left (fun acc' m => fadd acc' (term l m)) (seq 0 (S l)) acc)
    (seq 0 (S l_max)) fzero.

(** The coefficient pair of degree [l] and order [m] applied to the real
    and imaginary parts of [Y_lm(theta, phi)]: [Slm] multiplies the real
    part (which carries [cos (m phi)]), [Tlm] the imaginary part (which
    carries [sin (m phi)]). *)
Definition angular_term (Slm Tlm : ndarray F) (l_max : nat) (theta phi : F)
    (l m : nat) : F :=
  let Y := sph_harm m l phi theta l_max in
  fadd (fmul (item Slm l m) (fst Y)) (fmul (item Tlm l m) (snd Y)).



(** A function of one point applied to a position argument: a scalar for
    one point, one value per point for a batch. *)
Definition pointwise (f : Vec3 F -> F) (xyz : Positions F) : FieldValue F :=
  match xyz with
  | Single q => Scalar (f q)
  | Batch qs => Values (map f qs)
  end.

(** The first element of a batched result, as a scalar result. *)
Definition first_element (v : FieldValue F) : outcome (FieldValue F) :=
  match v with
  | Values (y :: _) => Returned (Scalar y)
  | _ => Raised IndexError
  end.
End MultipoleFormulas.

(* ================================================================= *)
(** * Composite phase-space positions: [base_composite.py] *)

Section Composite.
(** A component is any [AbstractBasePhaseSpacePosition]; the composite
    uses its [__len__]. *)
Variable Component : Type.
Variable component_len : Component -> nat.

(** The [ImmutableDict] of components: keys and values in insertion
    order. *)
Definition CompositePhaseSpacePosition : Type := list (string * Component).

Definition values (self : CompositePhaseSpacePosition) : list Component :=
  map snd self.

(** [a or b] on ints: [a] when it is truthy (non-zero), else [b]. *)
Definition int_or (a b : nat) : nat := if Nat.eqb a 0 then b else a.

(** The builtin [sum] of a list of ints. *)
Definition py_sum (xs : list nat) : nat := fold_left Nat.add xs 0%nat.

(** [__len__]: [sum([len(w) or 1 for w in self.values()])]. *)
Definition composite_len (self : CompositePhaseSpacePosition) : nat :=
  py_sum (map (fun w => int_or (component_len w) 1) (values self)).
End Composite.

(* ================================================================= *)
(** * Concrete values used in the examples *)

Definition b64_zero : binary64 := S754_zero false.
Definition b64_one : binary64 := b64_of_Z 1.
Definition b64_eight : binary64 := b64_of_Z 8.
(** The binary64 literal [0.1]. *)
Definition b64_tenth : binary64 := fdiv b64_one (b64_of_Z 10).

(** A progenitor on the x axis, 8 kpc from the host centre, moving along y. *)
Definition x_8kpc : Vec3 binary64 := mkVec3 b64_eight b64_zero b64_zero.
Definition v_along_y : Vec3 binary64 := mkVec3 b64_zero b64_one b64_zero.

(** A host in which the tidal radius of that progenitor is [0.1] kpc. *)
Definition tidal_radius_tenth
    (pot : unit) (x v : Vec3 binary64) (mass t : binary64) : binary64 :=
  b64_tenth.

(** A coefficient that depends on time: the array [[1.0]] of shape (1, 1)
    at [t == 0], the scalar [1.0] of shape () at any other time. *)
Definition coefficient_changing_shape : binary64 -> ndarray binary64 :=
  fun t =>
    if SFeqb t b64_zero then mkArray [1; 1]%nat [b64_one]
    else mkArray [] [b64_one].

(** [atan2] on the reals. *)
Definition Ratan2 (y x : R) : R :=
  if Rlt_dec 0 x then atan (y / x)
  else if Rlt_dec x 0 then
    (if Rle_dec 0 y then atan (y / x) + PI else atan (y / x) - PI)%R
  else if Rlt_dec 0 y then (PI / 2)%R
  else if Rlt_dec y 0 then (- PI / 2)%R
  else 0%R.

(** The monopole harmonic [Y_00 = 1 / (2 sqrt pi)]. *)
Definition Y00 : R := (/ (2 * sqrt PI))%R.

(** The special functions on the reals, with [sph_harm] restricted to the
    monopole (its value for [l = m = 0]). *)
Definition monopole_special : Special R := {|
  fpow := powerRZ;
  facos := acos;
  fatan2 := Ratan2;
  sph_harm := fun _ _ _ _ _ => (Y00, 0%R)
|}.

(** The coefficient arrays [[[1]]] and [[[0]]] of a monopole. *)
Definition S00_one : ndarray R := mkArray [1; 1]%nat [1%R].
Definition T00_zero : ndarray R := mkArray [1; 1]%nat [0%R].

(** Monopoles ([l_max = 0], [S00 = 1], [T00 = 0]) of unit mass and unit scale
    radius, with [G = 1]. *)
Definition monopole_inner : MultipoleInnerPotential (F := R) :=
  mkInner 1%R (ConstantParameter 1%R) (ConstantParameter 1%R) 0
          (ConstantParameter S00_one) (ConstantParameter T00_zero).

Definition monopole_outer : MultipoleOuterPotential (F := R) :=
  mkOuter 1%R (ConstantParameter 1%R) (ConstantParameter 1%R) 0
          (ConstantParameter S00_one) (ConstantParameter T00_zero).

Definition monopole_both : MultipolePotential (F := R) :=
  mkMultipole 1%R (ConstantParameter 1%R) (ConstantParameter 1%R) 0
              (ConstantParameter S00_one) (ConstantParameter T00_zero)
              (ConstantParameter S00_one) (ConstantParameter T00_zero).

(** The point one scale radius from the centre, on the x axis. *)
Definition unit_x : Vec3 R := mkVec3 1%R 0%R 0%R.

(* ================================================================= *)
(** * [relaxation_time]: [register_funcs.py] *)

(** Numeric literals: the carrier's value of an integer. *)
Class Literals (F : Type) : Type := {
  of_Z : Z -> F
}.

#[export] Instance R_literals : Literals R := {| of_Z := IZR |}.

#[export] Instance binary64_literals : Literals binary64 := {| of_Z := b64_of_Z |}.

Section RelaxationTime.
Context {F : Type} {arith : Arith F} {lit : Literals F}.

(** [jnp.log]. *)
Variable flog : F -> F.

(** The float literals [0.138] and [0.4]: the nearest carrier value of the
    decimal, which the correctly rounded quotient of two exact integers
    is. *)
Definition lit_0_138 : F := fdiv (of_Z 138) (of_Z 1000).
Definition lit_0_4 : F := fdiv (of_Z 4) (of_Z 10).

(** [x**2] and [x**3] with a Python int exponent (repeated products). *)
Definition square (x : F) : F := fmul x x.
Definition cube (x : F) : F := fmul x (fmul x x).

(** [relaxation_time(Mc, r_hm, m_avg, /, *, G)], Baumgardt 1998 Equation 1. *)
Definition relaxation_time (Mc r_hm m_avg G : F) : F :=
  let N := fdiv Mc m_avg in
  fdiv (fmul lit_0_138
             (fsqrt (fdiv (fdiv (fmul Mc (cube r_hm)) G) (square m_avg))))
       (flog (fmul lit_0_4 N)).
End RelaxationTime.

(* ================================================================= *)
(** * Progenitor mass: [progenitor.py] *)

(** [ConstantMassProtenitor]: its field [m_tot]. *)
Record ConstantMassProtenitor (F : Type) : Type := mkConstantMass {
  cm_m_tot : F
}.

Arguments mkConstantMass {F} cm_m_tot.

Section ProgenitorMass.
Context {F : Type} {arith : Arith F} {lit : Literals F}.

(** The number of elements of an array of the given shape. *)
Definition size_of (shp : list nat) : nat := fold_right Nat.mul 1%nat shp.

(** [jnp.ones(shape)]. *)
Definition ones (shp : list nat) : ndarray F :=
  mkArray shp (repeat (of_Z 1) (size_of shp)).

(** An array times a scalar, element by element. *)
Definition array_scale (a : ndarray F) (k : F) : ndarray F :=
  mkArray (shape a) (map (fun x => fmul x k) (data a)).

(** [__call__(self, t)]: [jnp.ones(t.shape) * self.m_tot]. *)
Definition constant_mass_call (self : ConstantMassProtenitor F) (t : ndarray F)
    : ndarray F :=
  array_scale (ones (shape t)) (cm_m_tot self).
End ProgenitorMass.

(* ================================================================= *)
(** * More of [base_composite.py] *)

(** What the methods of a composite raise: [KeyError] for a missing
    component name, the exception [e] of a component's own method, the
    [ValueError] of [broadcast_shapes] on incompatible shapes, and
    [StopIteration] from [zeroth] of no values. *)
Inductive composite_exn (E : Type) : Type :=
| KeyError (key : string)
| ComponentRaised (e : E)
| IncompatibleShapes
| StopIteration.

Arguments KeyError {E} key.
Arguments ComponentRaised {E} e.
Arguments IncompatibleShapes {E}.
Arguments StopIteration {E}.

Inductive result (X A : Type) : Type :=
| Ok (a : A)
| Err (x : X).

Arguments Ok {X A} a.
Arguments Err {X A} x.

Definition rbind {X A B : Type} (m : result X A) (k : A -> result X B) : result X B :=
  match m with
  | Ok a => k a
  | Err x => Err x
  end.

(** Broadcasting of two dimensions: equal, or one of them is 1. *)
Definition broadcast_dim (a b : nat) : option nat :=
  if Nat.eqb a b then Some a
  else if Nat.eqb a 1 then Some b
  else if Nat.eqb b 1 then Some a
  else None.

(** Broadcasting of two shapes given from their last axis backwards. *)
Fixpoint broadcast_rev (s1 s2 : list nat) : option (list nat) :=
  match s1, s2 with
  | [], s => Some s
  | s, [] => Some s
  | a :: r1, b :: r2 =>
      match broadcast_dim a b, broadcast_rev r1 r2 with
      | Some d, Some r => Some (d :: r)
      | _, _ => None
      end
  end.

Definition broadcast2 (s1 s2 : list nat) : option (list nat) :=
  option_map (@rev nat) (broadcast_rev (rev s1) (rev s2)).

(** [jnp.broadcast_shapes] of the listed shapes; of no shapes it is [()]. *)
Fixpoint broadcast_shapes_from (acc : list nat) (shapes : list (list nat))
    : option (list nat) :=
  match shapes with
  | [] => Some acc
  | s :: rest =>
      match broadcast2 acc s with
      | Some acc' => broadcast_shapes_from acc' rest
      | None => None
      end
  end.

Definition broadcast_shapes (shapes : list (list nat)) : option (list nat) :=
  broadcast_shapes_from [] shapes.

Section CompositeMethods.
(** A component, with its [__len__], its batch [shape], its
    [_shape_tuple[1]], and its own [__getitem__], [to_units] and
    [represent_as], each of which may raise. *)
Variables (Component E Key Units PositionCls ComponentShapeTuple : Type).
Variable component_len : Component -> nat.
Variable component_shape : Component -> list nat.
Variable component_shape_tuple : Component -> ComponentShapeTuple.
Variable component_getitem : Component -> Key -> result E Component.
Variable component_to_units : Component -> Units -> result E Component.
Variable component_represent_as :
  Component -> PositionCls -> PositionCls -> result E Component.

(** An exception of a component's method, as the composite's method raises
    it. *)
Definition component_result (r : result E Component)
    : result (composite_exn E) Component :=
  match r with
  | Ok v => Ok v
  | Err e => Err (ComponentRaised e)
  end.

(** [self._data[key]]: the value stored under [key]. *)
Fixpoint lookup (key : string) (d : CompositePhaseSpacePosition Component)
    : option Component :=
  match d with
  | [] => None
  | (k, v) :: rest => if String.eqb k key then Some v else lookup key rest
  end.

(** [{k: f(v) for k, v in self.items()}], built in order and stopped by the
    first exception, then passed as keywords to [type(self)]. *)
Fixpoint rebuild (f : Component -> result E Component)
    (d : CompositePhaseSpacePosition Component)
    : result (composite_exn E) (CompositePhaseSpacePosition Component) :=
  match d with
  | [] => Ok []
  | (k, v) :: rest =>
      match f v with
      | Err e => Err (ComponentRaised e)
      | Ok v' => rbind (rebuild f rest) (fun rest' => Ok ((k, v') :: rest'))
      end
  end.

(** [__getitem__] with a [str] key. *)
Definition getitem_str (self : CompositePhaseSpacePosition Component)
    (key : string) : result (composite_exn E) Component :=
  match lookup key self with
  | Some v => Ok v
  | None => Err (KeyError key)
  end.

(** [__getitem__] with any other key, e.g. a slice. *)
Definition getitem_key (self : CompositePhaseSpacePosition Component) (key : Key)
    : result (composite_exn E) (CompositePhaseSpacePosition Component) :=
  rebuild (fun v => component_getitem v key) self.

(** [to_units(units)]. *)
Definition to_units (self : CompositePhaseSpacePosition Component) (units : Units)
    : result (composite_exn E) (CompositePhaseSpacePosition Component) :=
  rebuild (fun v => component_to_units v units) self.

(** [represent_as(psp, position_cls, differential)], with
    [differential_cls_of position_cls] standing for
    [position_cls.differential_cls]. *)
Variable differential_cls_of : PositionCls -> PositionCls.

Definition represent_as (psp : CompositePhaseSpacePosition Component)
    (position_cls : PositionCls) (differential : option PositionCls)
    : result (composite_exn E) (CompositePhaseSpacePosition Component) :=
  let differential_cls :=
    match differential with
    | None => differential_cls_of position_cls
    | Some d => d
    end in
  rebuild (fun v => component_represent_as v position_cls differential_cls) psp.

(** [batch_shape[:-1]] and [batch_shape[-1]] of a non-empty tuple. *)
Definition but_last (s : list nat) : list nat := removelast s.
Definition last_dim (s : list nat) : nat := last s 0%nat.

(** [_shape_tuple]. *)
Definition shape_tuple (self : CompositePhaseSpacePosition Component)
    : result (composite_exn E) (list nat * ComponentShapeTuple) :=
  match broadcast_shapes (map component_shape (values self)) with
  | None => Err IncompatibleShapes
  | Some batch_shape =>
      let batch_shape :=
        match batch_shape with
        | [] => [composite_len component_len self]
        | _ => but_last batch_shape
               ++ [(List.length self * last_dim batch_shape)%nat]
        end in
      match values self with
      | [] => Err StopIteration
      | w :: _ => Ok (batch_shape, component_shape_tuple w)
      end
  end.
End CompositeMethods.

(* ================================================================= *)
(** * The combined expansion as the documentation writes it *)

Section CombinedFormula.
Context {F : Type} {arith : Arith F} {special : Special F}.

End CombinedFormula.

(** A coefficient value with two axes, both of positive length. *)
Definition matrix_shaped {F : Type} (a : ndarray F) : Prop :=
  exists r c : nat, shape a = [r; c] /\ (1 <= r)%nat /\ (1 <= c)%nat.

(** Two [(2, 2)] coefficient arrays that differ above the diagonal only,
    and a zero one. *)
Definition dipole_S : ndarray R := mkArray [2; 2]%nat [1%R; 7%R; 2%R; 3%R].
Definition dipole_S' : ndarray R := mkArray [2; 2]%nat [1%R; 0%R; 2%R; 3%R].
Definition dipole_zero : ndarray R := mkArray [2; 2]%nat [0%R; 5%R; 0%R; 0%R].

(** The progenitor at the host centre. *)
Definition x_origin : Vec3 binary64 := mkVec3 b64_zero b64_zero b64_zero.

(* ================================================================= *)
(** * Lemmas on lists and outcomes *)

Unset Implicit Arguments.

Lemma map2_map {A B C D : Type} (f : B -> C -> D) (g : A -> B) (h : A -> C) xs :
  map2 f (map g xs) (map h xs) = map (fun x => f (g x) (h x)) xs.
Proof. induction xs as [|x xs IH]; cbn; [reflexivity|now rewrite IH]. Qed.

Lemma map2_map_r {A C D : Type} (f : A -> C -> D) (h : A -> C) xs :
  map2 f xs (map h xs) = map (fun x => f x (h x)) xs.
Proof. induction xs as [|x xs IH]; cbn; [reflexivity|now rewrite IH]. Qed.

Lemma map3_map {A B C D E : Type} (f : B -> C -> D -> E)
    (g : A -> B) (h : A -> C) (k : A -> D) xs :
  map3 f (map g xs) (map h xs) (map k xs) = map (fun x => f (g x) (h x) (k x)) xs.
Proof. induction xs as [|x xs IH]; cbn; [reflexivity|now rewrite IH]. Qed.

Lemma length_map2 {A B C : Type} (f : A -> B -> C) xs ys :
  List.length (map2 f xs ys) = Nat.min (List.length xs) (List.length ys).
Proof. revert ys. induction xs as [|x xs IH]; intros [|y ys]; cbn; auto. Qed.

Lemma length_map3 {A B C D : Type} (f : A -> B -> C -> D) xs ys zs :
  List.length (map3 f xs ys zs)
  = Nat.min (List.length xs) (Nat.min (List.length ys) (List.length zs)).
Proof.
  revert ys zs. induction xs as [|x xs IH]; intros [|y ys] [|z zs]; cbn; auto.
Qed.

Lemma repeat_map {A B : Type} (b : B) (xs : list A) :
  repeat b (List.length xs) = map (fun _ => b) xs.
Proof. induction xs as [|x xs IH]; cbn; [reflexivity|now rewrite IH]. Qed.

Lemma fold_left_pointwise {A B : Type} (f g : A -> B -> A) l a :
  (forall acc x, f acc x = g acc x) -> fold_left f l a = fold_left g l a.
Proof.
  intros Hfg. revert a. induction l as [|x l IH]; intros a; cbn; [reflexivity|].
  now rewrite Hfg, IH.
Qed.

Lemma fold_left_flat_map {A B C : Type} (f : A -> C -> A) (g : B -> list C) l a :
  fold_left f (flat_map g l) a = fold_left (fun acc x => fold_left f (g x) acc) l a.
Proof.
  revert a. induction l as [|x l IH]; intros a; cbn; [reflexivity|].
  now rewrite fold_left_app, IH.
Qed.

Lemma fold_left_of_map {A B C : Type} (f : A -> C -> A) (h : B -> C) l a :
  fold_left f (map h l) a = fold_left (fun acc x => f acc (h x)) l a.
Proof. revert a. induction l as [|x l IH]; intros a; cbn; [reflexivity|apply IH]. Qed.

Lemma bind_assoc {A B C : Type} (m : outcome A) (k : A -> outcome B)
    (k' : B -> outcome C) :
  (y <- (x <- m ;; k x) ;; k' y) = (x <- m ;; y <- k x ;; k' y).
Proof. destruct m; reflexivity. Qed.

Lemma bind_ext {A B : Type} (m : outcome A) (k k' : A -> outcome B) :
  (forall a, k a = k' a) -> bind m k = bind m k'.
Proof. intros E. destruct m; cbn; auto. Qed.

Lemma mapM_returned {A B : Type} (f : A -> outcome B) (g : A -> B) xs :
  (forall x, In x xs -> f x = Returned (g x)) ->
  mapM f xs = Returned (map g xs).
Proof.
  induction xs as [|x xs IH]; intros Hf; cbn; [reflexivity|].
  rewrite (Hf x) by now left. cbn. rewrite IH; [reflexivity|].
  intros y Hy. apply Hf. now right.
Qed.

Lemma mapM_Forall {A B : Type} (f : A -> outcome B) (Q : B -> Prop) xs ys :
  (forall x y, f x = Returned y -> Q y) ->
  mapM f xs = Returned ys -> Forall Q ys.
Proof.
  intros Hf. revert ys. induction xs as [|x xs IH]; intros ys E; cbn [mapM] in E.
  - injection E as <-. constructor.
  - destruct (f x) as [y|e] eqn:Ey; cbn [bind] in E; [|discriminate].
    destruct (mapM f xs) as [ys'|e]; cbn [bind] in E; [|discriminate].
    injection E as <-. constructor; [now apply (Hf x)|now apply IH].
Qed.




(* ================================================================= *)
(** * [tril_indices] enumerates the pairs [0 <= m <= l < n] row by row *)

Lemma filter_leb_seq_above (n b i : nat) :
  (i < b)%nat -> filter (fun j => Nat.leb j i) (seq b n) = [].
Proof.
  revert b. induction n as [|n IH]; intros b Hb; cbn [seq filter]; [reflexivity|].
  destruct (Nat.leb b i) eqn:E; [apply Nat.leb_le in E; lia|].
  apply IH. lia.
Qed.

Lemma filter_leb_seq (n a i : nat) :
  (a <= S i)%nat -> (i < a + n)%nat ->
  filter (fun j => Nat.leb j i) (seq a n) = seq a (S i - a).
Proof.
  revert a. induction n as [|n IH]; intros a Ha Hi.
  - replace (S i - a)%nat with 0%nat by lia. reflexivity.
  - cbn [seq filter]. destruct (Nat.leb a i) eqn:E.
    + apply Nat.leb_le in E.
      replace (S i - a)%nat with (S (i - a)) by lia. cbn [seq]. f_equal.
      rewrite IH by lia. reflexivity.
    + apply Nat.leb_gt in E.
      replace (S i - a)%nat with 0%nat by lia. cbn [seq].
      apply filter_leb_seq_above. lia.
Qed.

Lemma tril_pairs_rows (n a k : nat) :
  (a + k <= n)%nat ->
  filter (fun ij => tri (fst ij) (snd ij)) (list_prod (seq a k) (seq 0 n))
  = flat_map (fun l => map (pair l) (seq 0 (S l))) (seq a k).
Proof.
  revert a. induction k as [|k IH]; intros a Hk; [reflexivity|].
  cbn [seq list_prod flat_map]. rewrite filter_app, IH by lia. f_equal.
  rewrite filter_map_swap. cbn [fst snd]. unfold tri.
  rewrite filter_leb_seq by lia. now rewrite Nat.sub_0_r.
Qed.

Lemma tril_pairs_nested (n : nat) :
  tril_pairs n = flat_map (fun l => map (pair l) (seq 0 (S l))) (seq 0 n).
Proof. unfold tril_pairs. now apply tril_pairs_rows. Qed.

Lemma tril_pairs_bound (n l m : nat) :
  In (l, m) (tril_pairs n) -> (m <= l < n)%nat.
Proof.
  unfold tril_pairs. rewrite filter_In, in_prod_iff, !in_seq. cbn [fst snd].
  unfold tri. intros [[Hl _] Hm]. apply Nat.leb_le in Hm. lia.
Qed.

Lemma tril_indices_combine (n : nat) :
  combine (fst (tril_indices n)) (snd (tril_indices n)) = tril_pairs n.
Proof.
  unfold tril_indices. generalize (split_combine (tril_pairs n)).
  destruct (List.split (tril_pairs n)) as [ls ms]. auto.
Qed.

Lemma shape_eqb_eq (s1 s2 : list nat) : shape_eqb s1 s2 = true <-> s1 = s2.
Proof.
  revert s2. induction s1 as [|n1 r1 IH]; intros [|n2 r2]; cbn;
    try (split; [discriminate|discriminate]); [tauto|].
  rewrite andb_true_iff, Nat.eqb_eq, IH. split.
  - intros [-> ->]. reflexivity.
  - intros E. injection E as -> ->. auto.
Qed.


Lemma shape_eqb_refl (s : list nat) : shape_eqb s s = true.
Proof. now apply shape_eqb_eq. Qed.

(* ================================================================= *)
(** * The multipole sums *)

Section Summation.
Context {F : Type} {arith : Arith F} {special : Special F}.

Lemma sum_rows_pointwise {Q K : Type} (term : K -> Q -> F) (ks : list K)
    (acc : Q -> F) (qs : list Q) :
  fold_left (map2 fadd) (map (fun k => map (term k) qs) ks) (map acc qs)
  = map (fun q => fold_left (fun a k => fadd a (term k q)) ks (acc q)) qs.
Proof.
  revert acc. induction ks as [|k ks IH]; intros acc; cbn; [reflexivity|].
  rewrite map2_map. apply (IH (fun q => fadd (acc q) (term k q))).
Qed.

Lemma sum_axis0_pointwise {Q K : Type} (term : K -> Q -> F) (ks : list K)
    (qs : list Q) :
  sum_axis0 (List.length qs) (map (fun k => map (term k) qs) ks)
  = map (fun q => fold_left (fun a k => fadd a (term k q)) ks fzero) qs.
Proof. unfold sum_axis0. rewrite repeat_map. apply sum_rows_pointwise. Qed.

Lemma fold_tril_double_sum (l_max : nat) (term : nat -> nat -> F) :
  fold_left (fun a lm => fadd a (term (fst lm) (snd lm))) (tril_pairs (S l_max)) fzero
  = double_sum l_max term.
Proof.
  rewrite tril_pairs_nested, fold_left_flat_map. unfold double_sum.
  apply fold_left_pointwise. intros a l. now rewrite fold_left_of_map.
Qed.

Lemma getitem2_item (a : ndarray F) (L l m : nat) :
  shape a = lm_shape L -> (l <= L)%nat -> (m <= L)%nat ->
  getitem2 a l m = Returned (item a l m).
Proof.
  intros Ha Hl Hm. unfold getitem2, item. rewrite Ha. cbn [lm_shape nth].
  repeat f_equal; lia.
Qed.


Lemma spherical_batch (qs : list (Vec3 F)) (r_s : F) :
  cartesian_to_normalized_spherical qs r_s
  = (map (fun q => fst (fst (spherical_point q r_s))) qs,
     map (fun q => snd (fst (spherical_point q r_s))) qs,
     map (fun q => snd (spherical_point q r_s)) qs).
Proof.
  unfold cartesian_to_normalized_spherical, spherical_point. cbn [fst snd].
  now rewrite map_map, map2_map_r.
Qed.

(** The vmapped, summed rows are, point by point, the double sum of the
    summand. *)
Lemma summation_over_pointwise {Q : Type} (L : nat) (qs : list Q)
    (summand : nat -> nat -> outcome (list F)) (term : nat -> nat -> Q -> F)
    (ls ms : list nat) :
  tril_indices (L + 1) = (ls, ms) ->
  (forall l m, (m <= l <= L)%nat -> summand l m = Returned (map (term l m) qs)) ->
  summation_over (List.length qs) summand ls ms
  = Returned (map (fun q => double_sum L (fun l m => term l m q)) qs).
Proof.
  intros Hlm Hsum. unfold summation_over.
  pose proof (tril_indices_combine (L + 1)) as Hc. rewrite Hlm in Hc.
  cbn [fst snd] in Hc. rewrite Hc.
  rewrite (mapM_returned _ (fun lm => map (term (fst lm) (snd lm)) qs)).
  - cbn [bind]. rewrite sum_axis0_pointwise. f_equal. apply map_ext. intros q.
    replace (L + 1)%nat with (S L) by lia.
    now rewrite <- fold_tril_double_sum.
  - intros [l m] Hin. apply tril_pairs_bound in Hin. cbn [fst snd].
    apply Hsum. lia.
Qed.

Lemma inner_potential_finish (P : MultipoleInnerPotential) xyz t :
  shape (in_Slm P t) = lm_shape (in_l_max P) ->
  shape (in_Tlm P t) = lm_shape (in_l_max P) ->
  inner_potential P xyz t
  = finish (is_scalar xyz) (in_G P) (in_m_tot P t) (in_r_s P t)
      (map (fun q =>
              double_sum (in_l_max P) (fun l m =>
                let '(s, theta, phi) := spherical_point q (in_r_s P t) in
                fmul (fpow s (Z.of_nat l))
                     (angular_term (in_Slm P t) (in_Tlm P t) (in_l_max P)
                                   theta phi l m)))
           (atleast_2d xyz)).
Proof.
  intros HS HT. unfold inner_potential. rewrite spherical_batch.
  destruct (tril_indices (in_l_max P + 1)) as [ls ms] eqn:Hlm.
  rewrite length_map.
  erewrite summation_over_pointwise; [reflexivity|exact Hlm|].
  intros l m Hb. cbv beta. unfold compute_Ylm. rewrite map2_map, !map_map.
  rewrite !getitem2_item with (L := in_l_max P) by (assumption || lia).
  cbn [bind]. rewrite map3_map. reflexivity.
Qed.

Lemma outer_potential_finish (P : MultipoleOuterPotential) xyz t :
  shape (out_Slm P t) = lm_shape (out_l_max P) ->
  shape (out_Tlm P t) = lm_shape (out_l_max P) ->
  outer_potential P xyz t
  = finish (is_scalar xyz) (out_G P) (out_m_tot P t) (out_r_s P t)
      (map (fun q =>
              double_sum (out_l_max P) (fun l m =>
                let '(s, theta, phi) := spherical_point q (out_r_s P t) in
                fmul (fpow s (- (Z.of_nat l + 1)))
                     (angular_term (out_Slm P t) (out_Tlm P t) (out_l_max P)
                                   theta phi l m)))
           (atleast_2d xyz)).
Proof.
  intros HS HT. unfold outer_potential. rewrite spherical_batch.
  destruct (tril_indices (out_l_max P + 1)) as [ls ms] eqn:Hlm.
  rewrite length_map.
  erewrite summation_over_pointwise; [reflexivity|exact Hlm|].
  intros l m Hb. cbv beta. unfold compute_Ylm. rewrite map2_map, !map_map.
  rewrite !getitem2_item with (L := out_l_max P) by (assumption || lia).
  cbn [bind]. rewrite map3_map. reflexivity.
Qed.

End Summation.


(** In exact arithmetic, when the harmonic factors as
    [Y_lm = K * (cos (m phi) + i sin (m phi))], the angular term is
    [K * (Slm cos (m phi) + Tlm sin (m phi))]. *)
Lemma angular_term_cos_sin (sp : Special R) (Slm Tlm : ndarray R) (l_max l m : nat)
    (theta phi K : R) :
  sph_harm m l phi theta l_max
  = ((K * cos (INR m * phi))%R, (K * sin (INR m * phi))%R) ->
  angular_term Slm Tlm l_max theta phi l m
  = (K * (item Slm l m * cos (INR m * phi) + item Tlm l m * sin (INR m * phi)))%R.
Proof.
  intros HY. unfold angular_term. rewrite HY. cbn [fst snd fadd fmul R_arith]. ring.
Qed.

(* ================================================================= *)
(** * Scalar and batched evaluation *)

Section Evaluation.
Context {F : Type} {arith : Arith F} {special : Special F}.

Lemma finish_scalar_first (G m_tot r_s : F) (summation : list F) :
  finish true G m_tot r_s summation
  = (v <- finish false G m_tot r_s summation ;; first_element v).
Proof. destruct summation as [|y ys]; reflexivity. Qed.

Lemma finish_batch_returns G m r (summation : list F) v :
  finish false G m r summation = Returned v ->
  exists ys, v = Values ys /\ List.length ys = List.length summation.
Proof.
  cbn [finish]. intros E. injection E as <-. eexists. split; [reflexivity|].
  apply length_map.
Qed.


Lemma length_sum_axis0 (n : nat) (rows : list (list F)) :
  Forall (fun row => List.length row = n) rows ->
  List.length (sum_axis0 n rows) = n.
Proof.
  unfold sum_axis0. intros Hrows.
  assert (Hacc : List.length (repeat fzero n) = n) by apply repeat_length.
  revert Hacc. generalize (repeat fzero n).
  induction Hrows as [|row rows Hrow _ IH]; intros acc Hacc; cbn [fold_left];
    [exact Hacc|].
  apply IH. rewrite length_map2, Hacc, Hrow. apply Nat.min_id.
Qed.

Lemma summation_over_length (n : nat) summand ls ms ys :
  (forall l m row, summand l m = Returned row -> List.length row = n) ->
  summation_over n summand ls ms = Returned ys -> List.length ys = n.
Proof.
  intros Hs E. unfold summation_over in E.
  destruct (mapM _ (combine ls ms)) as [rows|e] eqn:Er; cbn [bind] in E;
    [|discriminate].
  injection E as <-. apply length_sum_axis0.
  apply (mapM_Forall _ _ _ _ (fun lm row => Hs (fst lm) (snd lm) row) Er).
Qed.


Lemma spherical_lengths (qs : list (Vec3 F)) (r_s : F) s theta phi :
  cartesian_to_normalized_spherical qs r_s = (s, theta, phi) ->
  List.length s = List.length qs /\ List.length theta = List.length qs
  /\ List.length phi = List.length qs.
Proof.
  unfold cartesian_to_normalized_spherical. intros E. injection E as <- <- <-.
  rewrite length_map2, !length_map, Nat.min_id. auto.
Qed.

Lemma compute_Ylm_lengths l m theta phi l_max c sn (n : nat) :
  List.length theta = n -> List.length phi = n ->
  compute_Ylm l m theta phi l_max = (c, sn) ->
  List.length c = n /\ List.length sn = n.
Proof.
  unfold compute_Ylm. intros Ht Hp E. injection E as <- <-.
  rewrite !length_map, length_map2, Ht, Hp, Nat.min_id. auto.
Qed.

(** A batched evaluation that returns, returns one value per point. *)
Ltac batch_length :=
  cbn [atleast_2d is_scalar];
  let s := fresh "s" in
  let theta := fresh "theta" in
  let phi := fresh "phi" in
  let Es := fresh "Es" in
  let Hs := fresh "Hs" in
  let Ht := fresh "Ht" in
  let Hp := fresh "Hp" in
  let E := fresh "E" in
  let Ey := fresh "Ey" in
  let Ec := fresh "Ec" in
  let Er := fresh "Er" in
  let zs := fresh "zs" in
  let Hz := fresh "Hz" in
  let Hc := fresh "Hc" in
  let Hsn := fresh "Hsn" in
  let ls := fresh "ls" in
  let ms := fresh "ms" in
  let l := fresh "l" in
  let m := fresh "m" in
  let row := fresh "row" in
  match goal with
  | |- context [cartesian_to_normalized_spherical ?qs ?r] =>
      destruct (cartesian_to_normalized_spherical qs r) as [[s theta] phi] eqn:Es
  end;
  apply spherical_lengths in Es; destruct Es as [Hs [Ht Hp]];
  destruct (tril_indices _) as [ls ms]; intros E;
  match type of E with
  | bind ?o _ = _ => destruct o eqn:Ey; cbn [bind] in E; [|discriminate]
  end;
  apply finish_batch_returns in E; destruct E as [zs [-> Hz]];
  exists zs; split; [reflexivity|]; rewrite Hz, <- Hs;
  eapply summation_over_length; [|exact Ey]; intros l m row; cbv beta;
  match goal with
  | |- context [compute_Ylm l m ?th ?ph ?L] =>
      destruct (compute_Ylm l m th ph L) eqn:Ec;
      apply (compute_Ylm_lengths _ _ _ _ _ _ _ _ Ht Hp) in Ec;
      destruct Ec as [Hc Hsn]
  end;
  repeat (destruct (getitem2 _ l m); cbn [bind]; [|discriminate]);
  intros Er; injection Er as <-;
  rewrite length_map3, Hc, Hsn, Hs, !Nat.min_id; reflexivity.

Lemma inner_batch_length (P : MultipoleInnerPotential) qs t v :
  inner_potential P (Batch qs) t = Returned v ->
  exists ys, v = Values ys /\ List.length ys = List.length qs.
Proof. unfold inner_potential. batch_length. Qed.

Lemma outer_batch_length (P : MultipoleOuterPotential) qs t v :
  outer_potential P (Batch qs) t = Returned v ->
  exists ys, v = Values ys /\ List.length ys = List.length qs.
Proof. unfold outer_potential. batch_length. Qed.

Lemma multipole_batch_length (P : MultipolePotential) qs t v :
  multipole_potential P (Batch qs) t = Returned v ->
  exists ys, v = Values ys /\ List.length ys = List.length qs.
Proof. unfold multipole_potential. batch_length. Qed.

Lemma values_singleton (v : FieldValue F) :
  (exists ys, v = Values ys /\ List.length ys = 1%nat) ->
  exists y, v = Values [y] /\ first_element v = Returned (Scalar y).
Proof.
  intros [ys [-> Hl]]. destruct ys as [|y [|y' ys]]; try discriminate.
  exists y. split; reflexivity.
Qed.

Lemma inner_scalar_first (P : MultipoleInnerPotential) q t :
  inner_potential P (Single q) t
  = (v <- inner_potential P (Batch [q]) t ;; first_element v).
Proof.
  unfold inner_potential. cbn [atleast_2d is_scalar].
  destruct (cartesian_to_normalized_spherical [q] _) as [[s theta] phi].
  destruct (tril_indices _) as [ls ms].
  rewrite bind_assoc. apply bind_ext. intros a. apply finish_scalar_first.
Qed.

Lemma outer_scalar_first (P : MultipoleOuterPotential) q t :
  outer_potential P (Single q) t
  = (v <- outer_potential P (Batch [q]) t ;; first_element v).
Proof.
  unfold outer_potential. cbn [atleast_2d is_scalar].
  destruct (cartesian_to_normalized_spherical [q] _) as [[s theta] phi].
  destruct (tril_indices _) as [ls ms].
  rewrite bind_assoc. apply bind_ext. intros a. apply finish_scalar_first.
Qed.

Lemma multipole_scalar_first (P : MultipolePotential) q t :
  multipole_potential P (Single q) t
  = (v <- multipole_potential P (Batch [q]) t ;; first_element v).
Proof.
  unfold multipole_potential. cbn [atleast_2d is_scalar].
  destruct (cartesian_to_normalized_spherical [q] _) as [[s theta] phi].
  destruct (tril_indices _) as [ls ms].
  rewrite bind_assoc. apply bind_ext. intros a. apply finish_scalar_first.
Qed.

(** C8.  A single 3-vector position is promoted to a batch of one
    ([atleast_2d]); each of the three potentials evaluates it as that
    batch and takes the first element: the evaluation on the single point
    is the evaluation on the batch of one followed by [first_element], and
    whenever the batch evaluation returns, it returns exactly one value
    [y] and the single-point evaluation returns the scalar [y]. *)
Theorem scalar_input_is_first_of_batch_of_one :
  (forall q : Vec3 F, atleast_2d (Single q) = [q])
  /\ (forall (P : MultipoleInnerPotential) q t,
        inner_potential P (Single q) t
        = (v <- inner_potential P (Batch [q]) t ;; first_element v)
        /\ forall v, inner_potential P (Batch [q]) t = Returned v ->
             exists y, v = Values [y]
                       /\ inner_potential P (Single q) t = Returned (Scalar y))
  /\ (forall (P : MultipoleOuterPotential) q t,
        outer_potential P (Single q) t
        = (v <- outer_potential P (Batch [q]) t ;; first_element v)
        /\ forall v, outer_potential P (Batch [q]) t = Returned v ->
             exists y, v = Values [y]
                       /\ outer_potential P (Single q) t = Returned (Scalar y))
  /\ (forall (P : MultipolePotential) q t,
        multipole_potential P (Single q) t
        = (v <- multipole_potential P (Batch [q]) t ;; first_element v)
        /\ forall v, multipole_potential P (Batch [q]) t = Returned v ->
             exists y, v = Values [y]
                       /\ multipole_potential P (Single q) t = Returned (Scalar y)).
Proof.
  split; [reflexivity|].
  split; [|split]; intros P q t.
  - split; [apply inner_scalar_first|]. intros v Hv.
    destruct (values_singleton v (inner_batch_length P [q] t v Hv)) as [y [-> Hy]].
    exists y. split; [reflexivity|]. rewrite inner_scalar_first, Hv. exact Hy.
  - split; [apply outer_scalar_first|]. intros v Hv.
    destruct (values_singleton v (outer_batch_length P [q] t v Hv)) as [y [-> Hy]].
    exists y. split; [reflexivity|]. rewrite outer_scalar_first, Hv. exact Hy.
  - split; [apply multipole_scalar_first|]. intros v Hv.
    destruct (values_singleton v (multipole_batch_length P [q] t v Hv)) as [y [-> Hy]].
    exists y. split; [reflexivity|]. rewrite multipole_scalar_first, Hv. exact Hy.
Qed.




End Evaluation.

Lemma scalar_input_example :
  (exists y : R,
      inner_potential (special := monopole_special) monopole_inner (Single unit_x) 0%R
      = Returned (Scalar y))
  /\ (exists y : R,
        outer_potential (special := monopole_special) monopole_outer (Single unit_x) 0%R
        = Returned (Scalar y))
  /\ (exists y : R,
        multipole_potential (special := monopole_special) monopole_both
                            (Single unit_x) 0%R
        = Returned (Scalar y)).
Proof.
  destruct (scalar_input_is_first_of_batch_of_one (F := R) (special := monopole_special))
    as [_ [Tin [Tout Tboth]]].
  destruct (proj2 (Tin monopole_inner unit_x 0%R) _ eq_refl) as [y [_ Hin]].
  destruct (proj2 (Tout monopole_outer unit_x 0%R) _ eq_refl) as [y1 [_ Hout]].
  destruct (proj2 (Tboth monopole_both unit_x 0%R) _ eq_refl) as [y2 [_ Hboth]].
  split; [|split]; eexists; eassumption.
Defined.

(* ================================================================= *)
(** * Construction: [__check_init__] *)

Section Construction.
Context {F : Type} {arith : Arith F}.




Lemma new_inner_returns G m_tot r_s l_max (Slm Tlm : AbstractParameter (ndarray F)) :
  shape (Slm fzero) = lm_shape l_max -> shape (Tlm fzero) = lm_shape l_max ->
  new_inner G m_tot r_s l_max Slm Tlm = Returned (mkInner G m_tot r_s l_max Slm Tlm).
Proof.
  intros Hs Ht. unfold new_inner, check_init_inner.
  cbn [in_l_max in_Slm in_Tlm]. rewrite Hs, Ht, shape_eqb_refl. reflexivity.
Qed.

Lemma new_outer_returns G m_tot r_s l_max (Slm Tlm : AbstractParameter (ndarray F)) :
  shape (Slm fzero) = lm_shape l_max -> shape (Tlm fzero) = lm_shape l_max ->
  new_outer G m_tot r_s l_max Slm Tlm = Returned (mkOuter G m_tot r_s l_max Slm Tlm).
Proof.
  intros Hs Ht. unfold new_outer, check_init_outer.
  cbn [out_l_max out_Slm out_Tlm]. rewrite Hs, Ht, shape_eqb_refl. reflexivity.
Qed.

Lemma new_multipole_returns G m_tot r_s l_max
    (ISlm ITlm OSlm OTlm : AbstractParameter (ndarray F)) :
  shape (ISlm fzero) = lm_shape l_max -> shape (ITlm fzero) = lm_shape l_max ->
  shape (OSlm fzero) = lm_shape l_max -> shape (OTlm fzero) = lm_shape l_max ->
  new_multipole G m_tot r_s l_max ISlm ITlm OSlm OTlm
  = Returned (mkMultipole G m_tot r_s l_max ISlm ITlm OSlm OTlm).
Proof.
  intros H1 H2 H3 H4. unfold new_multipole, check_init_multipole.
  cbn [mp_l_max mp_ISlm mp_ITlm mp_OSlm mp_OTlm].
  rewrite H1, H2, H3, H4, shape_eqb_refl. reflexivity.
Qed.

(** A potential built from plain coefficient arrays exists only with
    arrays of the right shape, and keeps them at every time. *)
Lemma new_inner_constant_shapes G m_tot r_s l_max (Slm Tlm : ndarray F) P :
  new_inner G m_tot r_s l_max (ConstantParameter Slm) (ConstantParameter Tlm)
  = Returned P ->
  forall t, shape (in_Slm P t) = lm_shape (in_l_max P)
            /\ shape (in_Tlm P t) = lm_shape (in_l_max P).
Proof.
  unfold new_inner, check_init_inner. cbn [in_l_max in_Slm in_Tlm].
  unfold ConstantParameter at 1 2.
  destruct (shape_eqb (shape Slm) (lm_shape l_max)) eqn:Es; [|discriminate].
  destruct (shape_eqb (shape Tlm) (lm_shape l_max)) eqn:Et; [|discriminate].
  cbn [negb orb bind]. intros E t. injection E as <-.
  apply shape_eqb_eq in Es, Et. split; assumption.
Qed.
End Construction.

Section ConstructionClaims.
Context {F : Type} {arith : Arith F} {special : Special F}.

End ConstructionClaims.


(** C10.  The shape validation reads the coefficient parameters at [t = 0]
    only: whenever their values at [t = 0] have shape
    [(l_max + 1, l_max + 1)], construction of each of the three potentials
    succeeds, whatever the values at other times; and there is a
    time-dependent coefficient, of shape [(1, 1)] at [t = 0] and of another
    shape at a later time, with which all three constructions succeed. *)
Theorem check_init_reads_coefficients_at_t0_only :
  (forall (F : Type) (A : Arith F) G m_tot r_s l_max
          (Slm Tlm : AbstractParameter (ndarray F)),
      shape (Slm fzero) = lm_shape l_max ->
      shape (Tlm fzero) = lm_shape l_max ->
      new_inner G m_tot r_s l_max Slm Tlm = Returned (mkInner G m_tot r_s l_max Slm Tlm)
      /\ new_outer G m_tot r_s l_max Slm Tlm
         = Returned (mkOuter G m_tot r_s l_max Slm Tlm))
  /\ (forall (F : Type) (A : Arith F) G m_tot r_s l_max
             (ISlm ITlm OSlm OTlm : AbstractParameter (ndarray F)),
        shape (ISlm fzero) = lm_shape l_max -> shape (ITlm fzero) = lm_shape l_max ->
        shape (OSlm fzero) = lm_shape l_max -> shape (OTlm fzero) = lm_shape l_max ->
        new_multipole G m_tot r_s l_max ISlm ITlm OSlm OTlm
        = Returned (mkMultipole G m_tot r_s l_max ISlm ITlm OSlm OTlm))
  /\ (exists (c : AbstractParameter (ndarray binary64)) (t1 : binary64),
        shape (c fzero) = lm_shape 0
        /\ shape (c t1) <> lm_shape 0
        /\ forall G m_tot r_s,
            new_inner G m_tot r_s 0 c c = Returned (mkInner G m_tot r_s 0 c c)
            /\ new_outer G m_tot r_s 0 c c = Returned (mkOuter G m_tot r_s 0 c c)
            /\ new_multipole G m_tot r_s 0 c c c c
               = Returned (mkMultipole G m_tot r_s 0 c c c c)).
Proof.
  split; [|split].
  - intros F A G m_tot r_s l_max Slm Tlm Hs Ht. split.
    + now apply new_inner_returns.
    + now apply new_outer_returns.
  - intros F A G m_tot r_s l_max ISlm ITlm OSlm OTlm H1 H2 H3 H4.
    now apply new_multipole_returns.
  - exists coefficient_changing_shape, b64_one.
    split; [reflexivity|]. split; [vm_compute; discriminate|].
    intros G m_tot r_s. split; [|split];
      [apply new_inner_returns|apply new_outer_returns|apply new_multipole_returns];
      reflexivity.
Qed.

Lemma check_init_reads_coefficients_example :
  shape (coefficient_changing_shape b64_one) = []
  /\ new_inner b64_one (ConstantParameter b64_one) (ConstantParameter b64_one) 0
               coefficient_changing_shape coefficient_changing_shape
     = Returned (mkInner b64_one (ConstantParameter b64_one) (ConstantParameter b64_one)
                         0 coefficient_changing_shape coefficient_changing_shape)
  /\ new_multipole b64_one (ConstantParameter b64_one) (ConstantParameter b64_one) 0
                   coefficient_changing_shape coefficient_changing_shape
                   coefficient_changing_shape coefficient_changing_shape
     = Returned (mkMultipole b64_one (ConstantParameter b64_one)
                             (ConstantParameter b64_one) 0
                             coefficient_changing_shape coefficient_changing_shape
                             coefficient_changing_shape coefficient_changing_shape).
Proof.
  destruct check_init_reads_coefficients_at_t0_only as [T1 [T2 _]].
  split; [reflexivity|]. split.
  - apply (T1 binary64 binary64_arith); reflexivity.
  - apply (T2 binary64 binary64_arith); reflexivity.
Defined.

(* ================================================================= *)
(** * Lagrange points *)

Section ClusterOverloads.
Context {F : Type} {arith : Arith F}.
Variables (Potential AbstractPos3D AbstractVel3D Frame : Type).
Variable pos_to_quantity : AbstractPos3D -> Vec3 F.
Variable vel_to_quantity : AbstractVel3D -> Vec3 F.
Variable tidal_radius_king1962 : Potential -> Vec3 F -> Vec3 F -> F -> F -> F.

(** In every arithmetic, [l1 = x - r_hat * r_t] and [l2 = x + r_hat * r_t]
    component by component. *)
Lemma lagrange_points_components (pot : Potential) (x : PosArg AbstractPos3D)
    (v : VelArg AbstractVel3D) (mass t : F) :
  let q := convert_pos pos_to_quantity x in
  let r_t := tidal_radius_king1962 pot q (convert_vel vel_to_quantity v) mass t in
  lagrange_points pos_to_quantity vel_to_quantity tidal_radius_king1962 pot x v mass t
  = mkL1L2 (vsub q (vscale (normalize_vector q) r_t))
           (vadd q (vscale (normalize_vector q) r_t)).
Proof. reflexivity. Qed.

(** C6.  Every overload of [lagrange_points] (position and velocity given
    as quantities or as coordinax vectors, a [Space], a [Coordinate], a
    phase-space coordinate, a phase-space position) returns what the
    vector form returns on the extracted position vector, velocity vector
    and time. *)
Theorem lagrange_points_overloads_reduce_to_vector_form
    (pot : Potential) (mass t : F) :
  (forall x v,
      lagrange_points pos_to_quantity vel_to_quantity tidal_radius_king1962
                      pot x v mass t
      = lagrange_points pos_to_quantity vel_to_quantity tidal_radius_king1962 pot
          (PosQuantity _ (convert_pos pos_to_quantity x))
          (VelQuantity _ (convert_vel vel_to_quantity v)) mass t)
  /\ (forall space : Space AbstractPos3D AbstractVel3D,
        lagrange_points_space pos_to_quantity vel_to_quantity
                              tidal_radius_king1962 pot space mass t
        = lagrange_points pos_to_quantity vel_to_quantity tidal_radius_king1962 pot
            (PosQuantity _ (pos_to_quantity (space_length space)))
            (VelQuantity _ (vel_to_quantity (space_speed space))) mass t)
  /\ (forall coord : Coordinate AbstractPos3D AbstractVel3D Frame,
        lagrange_points_coord pos_to_quantity vel_to_quantity
                              tidal_radius_king1962 pot coord mass t
        = lagrange_points pos_to_quantity vel_to_quantity tidal_radius_king1962 pot
            (PosQuantity _ (pos_to_quantity (space_length (coord_data coord))))
            (VelQuantity _ (vel_to_quantity (space_speed (coord_data coord))))
            mass t)
  /\ (forall w : PhaseSpaceCoordinate (F := F) AbstractPos3D AbstractVel3D,
        lagrange_points_psc pos_to_quantity vel_to_quantity
                            tidal_radius_king1962 pot w mass
        = lagrange_points pos_to_quantity vel_to_quantity tidal_radius_king1962 pot
            (PosQuantity _ (pos_to_quantity (psc_q w)))
            (VelQuantity _ (vel_to_quantity (psc_p w))) mass (squeeze (psc_t w)))
  /\ (forall w : PhaseSpacePosition AbstractPos3D AbstractVel3D,
        lagrange_points_psp pos_to_quantity vel_to_quantity
                            tidal_radius_king1962 pot w mass t
        = lagrange_points pos_to_quantity vel_to_quantity tidal_radius_king1962 pot
            (PosQuantity _ (pos_to_quantity (psp_q w)))
            (VelQuantity _ (vel_to_quantity (psp_p w))) mass t).
Proof.
  split; [|split; [|split; [|split]]].
  - intros [q|q] [p|p]; reflexivity.
  - intros [q p]. reflexivity.
  - intros [[q p] frame]. reflexivity.
  - intros [q p time]. reflexivity.
  - intros [q p]. reflexivity.
Qed.
End ClusterOverloads.

Section ClusterReal.
Open Scope R_scope.
Variables (Potential AbstractPos3D AbstractVel3D : Type).
Variable pos_to_quantity : AbstractPos3D -> Vec3 R.
Variable vel_to_quantity : AbstractVel3D -> Vec3 R.
Variable tidal_radius_king1962 : Potential -> Vec3 R -> Vec3 R -> R -> R -> R.

Lemma norm_sq (q : Vec3 R) :
  vector_norm q * vector_norm q = vx q * vx q + vy q * vy q + vz q * vz q.
Proof.
  unfold vector_norm. cbn [fsqrt fadd fmul R_arith]. apply sqrt_sqrt. nra.
Qed.

Lemma norm_nonzero (q : Vec3 R) : q <> mkVec3 0 0 0 -> vector_norm q <> 0.
Proof.
  intros Hq Hn. apply Hq. pose proof (norm_sq q) as E. rewrite Hn in E.
  destruct q as [x y z]. cbn [vx vy vz] in E.
  assert (x = 0) by nra. assert (y = 0) by nra. assert (z = 0) by nra.
  now subst.
Qed.

(** The unit vector scaled by [r] has length [|r|]. *)
Lemma norm_scaled_unit (q : Vec3 R) (r : R) :
  q <> mkVec3 0 0 0 ->
  vector_norm (vscale (normalize_vector q) r) = Rabs r.
Proof.
  intros Hq. pose proof (norm_nonzero q Hq) as Hn. pose proof (norm_sq q) as E.
  rewrite <- sqrt_Rsqr_abs. unfold normalize_vector.
  set (n := vector_norm q) in *.
  unfold vector_norm at 1. cbn [vscale vdivs vx vy vz fsqrt fadd fmul fdiv R_arith].
  f_equal. unfold Rsqr.
  transitivity (r * r * ((vx q * vx q + vy q * vy q + vz q * vz q) / (n * n))).
  - field. exact Hn.
  - rewrite <- E. field. exact Hn.
Qed.

(** C2, amended.  In exact real arithmetic, for every host potential,
    nonzero progenitor position [x], velocity, mass and time,
    [lagrange_points] returns [l1 = x - r_hat * r_t] and
    [l2 = x + r_hat * r_t] with [r_hat] the unit vector from the host
    centre to the progenitor and [r_t] the tidal radius; [l1] and [l2] are
    symmetric about [x] along [r_hat]: [l2 - x = x - l1 = r_hat * r_t], and
    [|l2 - x| = |x - l1| = |r_t|]. *)
Theorem lagrange_points_symmetric_exact_arithmetic
    (pot : Potential) (x : PosArg AbstractPos3D) (v : VelArg AbstractVel3D)
    (mass t : R) :
  let q := convert_pos pos_to_quantity x in
  let r_t := tidal_radius_king1962 pot q (convert_vel vel_to_quantity v) mass t in
  let r_hat := normalize_vector q in
  let lp := lagrange_points pos_to_quantity vel_to_quantity
                            tidal_radius_king1962 pot x v mass t in
  q <> mkVec3 0 0 0 ->
  l1 lp = vsub q (vscale r_hat r_t)
  /\ l2 lp = vadd q (vscale r_hat r_t)
  /\ vsub (l2 lp) q = vscale r_hat r_t
  /\ vsub q (l1 lp) = vscale r_hat r_t
  /\ vector_norm (vsub (l2 lp) q) = Rabs r_t
  /\ vector_norm (vsub q (l1 lp)) = Rabs r_t.
Proof.
  intros q r_t r_hat lp Hq.
  assert (E2 : vsub (l2 lp) q = vscale r_hat r_t).
  { subst lp. unfold lagrange_points. cbn [l2]. fold q. fold r_t. fold r_hat.
    unfold vsub, vadd, vscale. cbn [vx vy vz fsub fadd fmul R_arith].
    f_equal; ring. }
  assert (E1 : vsub q (l1 lp) = vscale r_hat r_t).
  { subst lp. unfold lagrange_points. cbn [l1]. fold q. fold r_t. fold r_hat.
    unfold vsub, vscale. cbn [vx vy vz fsub fmul R_arith]. f_equal; ring. }
  repeat split; try reflexivity; try assumption.
  - rewrite E2. apply norm_scaled_unit. exact Hq.
  - rewrite E1. apply norm_scaled_unit. exact Hq.
Qed.
End ClusterReal.

Lemma lagrange_points_symmetric_example :
  let lp := lagrange_points (F := R) (Potential := unit) (fun q : Vec3 R => q)
              (fun p : Vec3 R => p) (fun _ _ _ _ _ => 2%R) tt
              (PosQuantity _ unit_x) (VelQuantity _ (mkVec3 0 1 0)%R) 1%R 0%R in
  vector_norm (vsub (l2 lp) unit_x) = Rabs 2
  /\ vector_norm (vsub unit_x (l1 lp)) = Rabs 2.
Proof.
  intros lp.
  assert (Hq : unit_x <> mkVec3 0%R 0%R 0%R).
  { intros E. injection E as E. lra. }
  pose proof (lagrange_points_symmetric_exact_arithmetic unit (Vec3 R) (Vec3 R)
                (fun q => q) (fun p => p) (fun _ _ _ _ _ => 2%R) tt
                (PosQuantity _ unit_x) (VelQuantity _ (mkVec3 0 1 0)%R)
                1%R 0%R Hq) as T.
  split; apply T.
Defined.

(** C2 as stated fails in binary64: for the progenitor at [x = (8, 0, 0)]
    with tidal radius [0.1], [l2 = (8.1, 0, 0)] after rounding and
    [|l2 - x| = 0.09999999999999964], which is not [r_t]; likewise
    [|x - l1|]. *)
Lemma lagrange_points_not_exact_binary64 :
  let lp := lagrange_points (fun q : Vec3 binary64 => q) (fun p : Vec3 binary64 => p)
              tidal_radius_tenth tt
              (PosQuantity _ x_8kpc) (VelQuantity _ v_along_y) b64_one b64_zero in
  let r_t := tidal_radius_tenth tt x_8kpc v_along_y b64_one b64_zero in
  is_finite r_t = true
  /\ l2 lp = mkVec3 (S754_finite false 4559894622712627 (-49)) b64_zero b64_zero
  /\ vector_norm (vsub (l2 lp) x_8kpc) = S754_finite false 7205759403792768 (-56)
  /\ r_t = S754_finite false 7205759403792794 (-56)
  /\ vector_norm (vsub (l2 lp) x_8kpc) <> r_t
  /\ SFeqb (vector_norm (vsub (l2 lp) x_8kpc)) r_t = false
  /\ SFeqb (vector_norm (vsub x_8kpc (l1 lp))) r_t = false.
Proof.
  vm_compute. repeat split; discriminate.
Qed.

(** In exact arithmetic the distance is [|r_t|], not [r_t]: with a negative
    value of the tidal radius the two differ. *)
Lemma lagrange_points_negative_radius :
  let lp := lagrange_points (F := R) (Potential := unit) (fun q : Vec3 R => q)
              (fun p : Vec3 R => p) (fun _ _ _ _ _ => (-1)%R) tt
              (PosQuantity _ unit_x) (VelQuantity _ (mkVec3 0 1 0)%R) 1%R 0%R in
  vector_norm (vsub (l2 lp) unit_x) <> (-1)%R.
Proof.
  intros lp E.
  pose proof (sqrt_pos (vx (vsub (l2 lp) unit_x) * vx (vsub (l2 lp) unit_x)
                        + vy (vsub (l2 lp) unit_x) * vy (vsub (l2 lp) unit_x)
                        + vz (vsub (l2 lp) unit_x) * vz (vsub (l2 lp) unit_x))%R) as Hp.
  unfold vector_norm in E. cbn [fsqrt fadd fmul R_arith] in E. lra.
Qed.

(** ** Non-finite values in binary64 *)

Section ClusterBinary64.
Variables (Potential AbstractPos3D AbstractVel3D : Type).
Variable pos_to_quantity : AbstractPos3D -> Vec3 binary64.
Variable vel_to_quantity : AbstractVel3D -> Vec3 binary64.
Variable tidal_radius_king1962 :
  Potential -> Vec3 binary64 -> Vec3 binary64 -> binary64 -> binary64 -> binary64.

Lemma b64_sub_nonfinite (a b : binary64) :
  is_finite a = false \/ is_finite b = false -> is_finite (fsub a b) = false.
Proof.
  intros [Hn|Hn];
    destruct a as [s|s| |s m e], b as [s'|s'| |s' m' e']; try discriminate;
    try destruct s; try destruct s'; reflexivity.
Qed.

Lemma b64_add_nonfinite (a b : binary64) :
  is_finite a = false \/ is_finite b = false -> is_finite (fadd a b) = false.
Proof.
  intros [Hn|Hn];
    destruct a as [s|s| |s m e], b as [s'|s'| |s' m' e']; try discriminate;
    try destruct s; try destruct s'; reflexivity.
Qed.

Lemma b64_mul_nonfinite_r (a b : binary64) :
  is_finite b = false -> is_finite (fmul a b) = false.
Proof.
  intros Hn.
  destruct a as [s|s| |s m e], b as [s'|s'| |s' m' e']; try discriminate; reflexivity.
Qed.

(** X15.  In binary64, a non-finite component of the position is
    non-finite in [l1] and in [l2], whatever the tidal radius. *)
Lemma lagrange_points_nonfinite_position
    (pot : Potential) (x : PosArg AbstractPos3D) (v : VelArg AbstractVel3D)
    (mass t : binary64) (proj : Vec3 binary64 -> binary64) :
  proj = @vx binary64 \/ proj = @vy binary64 \/ proj = @vz binary64 ->
  let lp := lagrange_points pos_to_quantity vel_to_quantity
                            tidal_radius_king1962 pot x v mass t in
  is_finite (proj (convert_pos pos_to_quantity x)) = false ->
  is_finite (proj (l1 lp)) = false /\ is_finite (proj (l2 lp)) = false.
Proof.
  intros Hproj lp Hn. subst lp. unfold lagrange_points. cbn [l1 l2].
  destruct Hproj as [-> | [-> | ->]]; cbn [vsub vadd vx vy vz]; split;
    (apply b64_sub_nonfinite || apply b64_add_nonfinite); left; exact Hn.
Qed.

(** X16.  The velocity enters [l1] and [l2] through the tidal radius only;
    in binary64 a non-finite tidal radius makes every component of both
    non-finite. *)
Lemma lagrange_points_nonfinite_radius
    (pot : Potential) (x : PosArg AbstractPos3D) (v : VelArg AbstractVel3D)
    (mass t : binary64) (proj : Vec3 binary64 -> binary64) :
  proj = @vx binary64 \/ proj = @vy binary64 \/ proj = @vz binary64 ->
  let lp := lagrange_points pos_to_quantity vel_to_quantity
                            tidal_radius_king1962 pot x v mass t in
  is_finite (tidal_radius_king1962 pot (convert_pos pos_to_quantity x)
                                   (convert_vel vel_to_quantity v) mass t) = false ->
  is_finite (proj (l1 lp)) = false /\ is_finite (proj (l2 lp)) = false.
Proof.
  intros Hproj lp Hn. subst lp. unfold lagrange_points. cbn [l1 l2].
  destruct Hproj as [-> | [-> | ->]]; cbn [vsub vadd vscale vx vy vz]; split;
    (apply b64_sub_nonfinite || apply b64_add_nonfinite); right;
    apply b64_mul_nonfinite_r; exact Hn.
Qed.
End ClusterBinary64.

(* ================================================================= *)
(** * The monopole *)

Section Monopole.
Open Scope R_scope.
Context (sp : Special R).
(** [jnp.pow] read as the exact integer power, and the monopole harmonic
    [Y_00], which does not depend on the angles. *)
Hypothesis fpow_real : forall s n, fpow s n = powerRZ s n.
Variable y00 : R.
Hypothesis sph_harm_00 :
  forall phi theta n_max, fst (sph_harm 0 0 phi theta n_max) = y00.

Lemma monopole_outer_point (G m_tot r_s : R) (q : Vec3 R) :
  r_s <> 0 ->
  fmul (fdiv (fmul G m_tot) r_s)
    (double_sum 0 (fun l m =>
       let '(s, theta, phi) := spherical_point q r_s in
       fmul (fpow s (- (Z.of_nat l + 1)))
            (angular_term S00_one T00_zero 0 theta phi l m)))
  = G * m_tot * y00 / vector_norm q.
Proof.
  intros Hr. unfold spherical_point.
  unfold double_sum. cbn [seq fold_left]. unfold angular_term, item.
  cbn [S00_one T00_zero shape data nth Nat.mul Nat.add fadd fmul fdiv fzero R_arith].
  rewrite sph_harm_00, fpow_real. cbn [Z.of_nat Z.add Z.opp].
  change (powerRZ ?x (-1)) with (/ (x * 1)). rewrite Rmult_1_r, Rinv_div.
  unfold Rdiv.
  transitivity (G * m_tot * y00 * / vector_norm q * (/ r_s * r_s)); [ring|].
  rewrite Rinv_l by exact Hr. ring.
Qed.

Lemma monopole_inner_point (G m_tot r_s : R) (q : Vec3 R) :
  fmul (fdiv (fmul G m_tot) r_s)
    (double_sum 0 (fun l m =>
       let '(s, theta, phi) := spherical_point q r_s in
       fmul (fpow s (Z.of_nat l))
            (angular_term S00_one T00_zero 0 theta phi l m)))
  = G * m_tot / r_s * y00.
Proof.
  unfold spherical_point.
  unfold double_sum. cbn [seq fold_left]. unfold angular_term, item.
  cbn [S00_one T00_zero shape data nth Nat.mul Nat.add fadd fmul fdiv fzero R_arith].
  rewrite sph_harm_00, fpow_real. cbn [Z.of_nat powerRZ]. ring.
Qed.

(** C5.  In exact arithmetic, a multipole potential with [l_max = 0],
    [S00 = 1] and [T00 = 0] evaluates, at every position [x] and time [t]
    (with [r_s(t)] non-zero), in the outer expansion to
    [G * m_tot * Y_00 / r], proportional to [1 / r], and in the inner
    expansion to the constant [G * m_tot / r_s * Y_00], independent of
    [x]. *)
Theorem monopole_closed_form :
  (forall (P : MultipoleOuterPotential) (t : R),
      out_l_max P = 0%nat -> out_Slm P t = S00_one -> out_Tlm P t = T00_zero ->
      out_r_s P t <> 0 ->
      forall xyz,
        outer_potential P xyz t
        = Returned (pointwise
                      (fun q => out_G P * out_m_tot P t * y00 / vector_norm q) xyz))
  /\ (forall (P : MultipoleInnerPotential) (t : R),
        in_l_max P = 0%nat -> in_Slm P t = S00_one -> in_Tlm P t = T00_zero ->
        forall xyz,
          inner_potential P xyz t
          = Returned (pointwise
                        (fun _ => in_G P * in_m_tot P t / in_r_s P t * y00) xyz)).
Proof.
  split.
  - intros P t HL HS HT Hr xyz.
    rewrite outer_potential_finish by (rewrite ?HS, ?HT, HL; reflexivity).
    rewrite HL, HS, HT.
    destruct xyz as [q|qs]; cbn [finish is_scalar atleast_2d map pointwise].
    + now rewrite monopole_outer_point.
    + rewrite map_map. do 2 f_equal. apply map_ext. intros q.
      now apply monopole_outer_point.
  - intros P t HL HS HT xyz.
    rewrite inner_potential_finish by (rewrite ?HS, ?HT, HL; reflexivity).
    rewrite HL, HS, HT.
    destruct xyz as [q|qs]; cbn [finish is_scalar atleast_2d map pointwise].
    + now rewrite monopole_inner_point.
    + rewrite map_map. do 2 f_equal. apply map_ext. intros q.
      now apply monopole_inner_point.
Qed.
End Monopole.

Lemma monopole_closed_form_example :
  outer_potential (special := monopole_special) monopole_outer (Single unit_x) 0%R
  = Returned (Scalar (1 * 1 * Y00 / vector_norm unit_x)%R)
  /\ inner_potential (special := monopole_special) monopole_inner (Single unit_x) 0%R
     = Returned (Scalar (1 * 1 / 1 * Y00)%R).
Proof.
  destruct (monopole_closed_form monopole_special (fun _ _ => eq_refl) Y00
              (fun _ _ _ => eq_refl)) as [Tout Tin].
  split.
  - apply (Tout monopole_outer 0%R eq_refl eq_refl eq_refl).
    unfold monopole_outer, ConstantParameter. cbn [out_r_s]. lra.
  - apply (Tin monopole_inner 0%R eq_refl eq_refl eq_refl).
Defined.

(* ================================================================= *)
(** * Length of a composite phase-space position *)

Section CompositeLen.
Variable Component : Type.
Variable component_len : Component -> nat.

Lemma py_sum_from (xs : list nat) (a : nat) :
  fold_left Nat.add xs a = (a + list_sum xs)%nat.
Proof.
  revert a. induction xs as [|x xs IH]; intros a; [cbn; lia|].
  cbn [fold_left]. rewrite IH.
  change (list_sum (x :: xs)) with (x + list_sum xs)%nat. lia.
Qed.

Lemma int_or_one (n : nat) : int_or n 1 = match n with O => 1%nat | S _ => n end.
Proof. destruct n; reflexivity. Qed.

Lemma list_sum_contributions (ws : list Component) :
  list_sum (map (fun w => match component_len w with
                          | O => 1%nat
                          | S _ => component_len w
                          end) ws)
  = (list_sum (map component_len ws)
     + List.length (filter (fun w => Nat.eqb (component_len w) 0) ws))%nat.
Proof.
  unfold list_sum. induction ws as [|w ws IH]; [reflexivity|].
  cbn [map fold_right filter]. rewrite IH.
  destruct (component_len w) as [|n]; cbn [Nat.eqb List.length]; lia.
Qed.

(** C9.  The length of a composite phase-space position is the sum over
    its components of the component's length, a component of length 0
    counting for 1: equivalently, the sum of the component lengths plus
    the number of components of length 0. *)
Theorem composite_len_is_sum_of_component_lens
    (self : CompositePhaseSpacePosition Component) :
  composite_len component_len self
  = list_sum (map (fun w => match component_len w with
                            | O => 1%nat
                            | S _ => component_len w
                            end) (values self))
  /\ composite_len component_len self
     = (list_sum (map component_len (values self))
        + List.length (filter (fun w => Nat.eqb (component_len w) 0)
                              (values self)))%nat.
Proof.
  assert (E : composite_len component_len self
              = list_sum (map (fun w => match component_len w with
                                        | O => 1%nat
                                        | S _ => component_len w
                                        end) (values self))).
  { unfold composite_len, py_sum. rewrite py_sum_from. cbn [Nat.add].
    f_equal. apply map_ext. intros w. apply int_or_one. }
  split; [exact E|]. rewrite E. apply list_sum_contributions.
Qed.
End CompositeLen.

(** The docstring's composite of two scalar positions has length 2. *)
Example composite_of_two_scalars :
  composite_len (fun shape : list nat => hd 0%nat shape)
                [("psp1"%string, []); ("psp2"%string, [])] = 2%nat.
Proof. reflexivity. Qed.

(* ================================================================= *)
(** * Further properties of the multipole potentials *)

Lemma fold_left_pointwise_in {A B : Type} (f g : A -> B -> A) l a :
  (forall acc x, In x l -> f acc x = g acc x) -> fold_left f l a = fold_left g l a.
Proof.
  revert a. induction l as [|x l IH]; intros a Hfg; cbn; [reflexivity|].
  rewrite Hfg by now left. apply IH. intros acc y Hy. apply Hfg. now right.
Qed.

Lemma mapM_total {A B : Type} (f : A -> outcome B) xs :
  (forall x, exists y, f x = Returned y) -> exists ys, mapM f xs = Returned ys.
Proof.
  intros Hf. induction xs as [|x xs [ys IH]]; cbn [mapM]; [now eexists|].
  destruct (Hf x) as [y ->]. rewrite IH. cbn. now eexists.
Qed.

Lemma tril_pairs_head (L : nat) :
  exists rest, tril_pairs (S L) = (0%nat, 0%nat) :: rest.
Proof. rewrite tril_pairs_nested. cbn. now eexists. Qed.

Lemma tril_pairs_in (n l m : nat) :
  In (l, m) (tril_pairs n) <-> (m <= l < n)%nat.
Proof.
  split; [apply tril_pairs_bound|]. intros Hb.
  unfold tril_pairs. rewrite filter_In, in_prod_iff, !in_seq. cbn [fst snd].
  unfold tri. split; [lia|]. apply Nat.leb_le. lia.
Qed.

Lemma NoDup_map_pair {A B : Type} (x : A) (ys : list B) :
  NoDup ys -> NoDup (map (pair x) ys).
Proof.
  induction 1 as [|y ys Hnin Hy IH]; cbn [map]; constructor; [|exact IH].
  intros Hin. apply in_map_iff in Hin. destruct Hin as [y' [E Hin]].
  injection E as ->. contradiction.
Qed.

Lemma NoDup_list_prod_seq {A B : Type} (xs : list A) (ys : list B) :
  NoDup xs -> NoDup ys -> NoDup (list_prod xs ys).
Proof.
  intros Hx Hy. induction Hx as [|x xs Hnin Hx IH]; cbn [list_prod]; [constructor|].
  apply NoDup_app.
  - apply NoDup_map_pair. exact Hy.
  - exact IH.
  - intros [a b] Hin1 Hin2. apply in_map_iff in Hin1. destruct Hin1 as [b' [E _]].
    injection E as <- <-. apply in_prod_iff in Hin2. tauto.
Qed.

Lemma length_tril_rows (k : nat) :
  (2 * List.length (flat_map (fun l => map (pair l) (seq 0 (S l))) (seq 0 k))
   = k * (k + 1))%nat.
Proof.
  induction k as [|k IH]; [reflexivity|].
  rewrite seq_S, flat_map_app, length_app. cbn [flat_map Nat.add].
  rewrite app_nil_r, length_map, length_seq. lia.
Qed.

(** X1.  [tril_indices(l_max + 1)] lists each pair [(l, m)] with
    [0 <= m <= l <= l_max] exactly once, so the potentials add
    [(l_max + 1) (l_max + 2) / 2] summands. *)
Theorem summands_are_the_lower_triangle (l_max : nat) :
  let ls := fst (tril_indices (l_max + 1)) in
  let ms := snd (tril_indices (l_max + 1)) in
  NoDup (combine ls ms)
  /\ (forall l m, In (l, m) (combine ls ms) <-> (m <= l <= l_max)%nat)
  /\ List.length ls = List.length ms
  /\ (2 * List.length ls = (l_max + 1) * (l_max + 2))%nat.
Proof.
  intros ls ms. subst ls ms. rewrite tril_indices_combine.
  assert (Hlen : (2 * List.length (tril_pairs (l_max + 1))
                  = (l_max + 1) * (l_max + 2))%nat).
  { rewrite tril_pairs_nested, length_tril_rows. lia. }
  unfold tril_indices.
  rewrite length_fst_split, length_snd_split.
  split; [|split; [|split]].
  - unfold tril_pairs. apply NoDup_filter.
    apply NoDup_list_prod_seq; apply seq_NoDup.
  - intros l m. rewrite tril_pairs_in. lia.
  - reflexivity.
  - exact Hlen.
Qed.

Section MultipoleMore.
Context {F : Type} {arith : Arith F} {special : Special F}.

Lemma double_sum_ext_bounded (L : nat) (f g : nat -> nat -> F) :
  (forall l m, (m <= l <= L)%nat -> f l m = g l m) -> double_sum L f = double_sum L g.
Proof.
  intros Hfg. unfold double_sum. apply fold_left_pointwise_in. intros a l Hl.
  apply in_seq in Hl. apply fold_left_pointwise_in. intros a' m Hm.
  apply in_seq in Hm. rewrite Hfg by lia. reflexivity.
Qed.


(** X2.  The inner and outer potentials read the coefficient arrays at the
    entries [l, m] with [m <= l <= l_max] only: two potentials that agree
    there, and in [G], [m_tot], [r_s] and [l_max], return the same values,
    whatever the entries above the diagonal. *)
Theorem potential_reads_lower_triangle_only :
  (forall (P P' : MultipoleInnerPotential) xyz t,
      in_G P = in_G P' -> in_m_tot P t = in_m_tot P' t ->
      in_r_s P t = in_r_s P' t -> in_l_max P = in_l_max P' ->
      shape (in_Slm P t) = lm_shape (in_l_max P) ->
      shape (in_Tlm P t) = lm_shape (in_l_max P) ->
      shape (in_Slm P' t) = lm_shape (in_l_max P) ->
      shape (in_Tlm P' t) = lm_shape (in_l_max P) ->
      (forall l m, (m <= l <= in_l_max P)%nat ->
                   item (in_Slm P t) l m = item (in_Slm P' t) l m
                   /\ item (in_Tlm P t) l m = item (in_Tlm P' t) l m) ->
      inner_potential P xyz t = inner_potential P' xyz t)
  /\ (forall (P P' : MultipoleOuterPotential) xyz t,
      out_G P = out_G P' -> out_m_tot P t = out_m_tot P' t ->
      out_r_s P t = out_r_s P' t -> out_l_max P = out_l_max P' ->
      shape (out_Slm P t) = lm_shape (out_l_max P) ->
      shape (out_Tlm P t) = lm_shape (out_l_max P) ->
      shape (out_Slm P' t) = lm_shape (out_l_max P) ->
      shape (out_Tlm P' t) = lm_shape (out_l_max P) ->
      (forall l m, (m <= l <= out_l_max P)%nat ->
                   item (out_Slm P t) l m = item (out_Slm P' t) l m
                   /\ item (out_Tlm P t) l m = item (out_Tlm P' t) l m) ->
      outer_potential P xyz t = outer_potential P' xyz t).
Proof.
  split; intros P P' xyz t HG Hm Hr HL HS HT HS' HT' Hitem.
  - rewrite (inner_potential_finish P) by assumption.
    rewrite (inner_potential_finish P') by (rewrite <- HL; assumption).
    rewrite <- HG, <- Hm, <- Hr, <- HL. f_equal. apply map_ext. intros q.
    apply double_sum_ext_bounded. intros l m Hb.
    destruct (spherical_point q (in_r_s P t)) as [[s theta] phi].
    unfold angular_term. destruct (Hitem l m Hb) as [-> ->]. reflexivity.
  - rewrite (outer_potential_finish P) by assumption.
    rewrite (outer_potential_finish P') by (rewrite <- HL; assumption).
    rewrite <- HG, <- Hm, <- Hr, <- HL. f_equal. apply map_ext. intros q.
    apply double_sum_ext_bounded. intros l m Hb.
    destruct (spherical_point q (out_r_s P t)) as [[s theta] phi].
    unfold angular_term. destruct (Hitem l m Hb) as [-> ->]. reflexivity.
Qed.

End MultipoleMore.

Section MultipoleReal.
Open Scope R_scope.
Context (sp : Special R).



Lemma fold_left_Rplus_zero {A : Type} (l : list A) (a : R) :
  fold_left (fun acc _ => acc + 0) l a = a.
Proof.
  revert a. induction l as [|x l IH]; intros a; cbn [fold_left]; [reflexivity|].
  rewrite IH. ring.
Qed.

Lemma double_sum_zero (L : nat) : double_sum L (fun _ _ => 0) = 0.
Proof.
  rewrite <- fold_tril_double_sum. cbn [fadd fzero R_arith].
  apply fold_left_Rplus_zero.
Qed.


(** X5.  In exact arithmetic, coefficient arrays that vanish on and below the
    diagonal give the zero potential, at every position and time. *)
Theorem zero_coefficients_give_zero_potential :
  (forall (P : MultipoleInnerPotential) xyz t,
      shape (in_Slm P t) = lm_shape (in_l_max P) ->
      shape (in_Tlm P t) = lm_shape (in_l_max P) ->
      (forall l m, (m <= l <= in_l_max P)%nat ->
                   item (in_Slm P t) l m = 0 /\ item (in_Tlm P t) l m = 0) ->
      inner_potential P xyz t = Returned (pointwise (fun _ => 0) xyz))
  /\ (forall (P : MultipoleOuterPotential) xyz t,
      shape (out_Slm P t) = lm_shape (out_l_max P) ->
      shape (out_Tlm P t) = lm_shape (out_l_max P) ->
      (forall l m, (m <= l <= out_l_max P)%nat ->
                   item (out_Slm P t) l m = 0 /\ item (out_Tlm P t) l m = 0) ->
      outer_potential P xyz t = Returned (pointwise (fun _ => 0) xyz)).
Proof.
  split; intros P xyz t HS HT Hz.
  - rewrite inner_potential_finish by assumption.
    assert (E : forall q,
               fmul (fdiv (fmul (in_G P) (in_m_tot P t)) (in_r_s P t))
                 (double_sum (in_l_max P) (fun l m =>
                    let '(s, theta, phi) := spherical_point q (in_r_s P t) in
                    fmul (fpow s (Z.of_nat l))
                         (angular_term (in_Slm P t) (in_Tlm P t) (in_l_max P)
                                       theta phi l m))) = 0).
    { intros q.
      rewrite (double_sum_ext_bounded (in_l_max P) _ (fun _ _ => 0)).
      - rewrite double_sum_zero. cbn [fmul R_arith]. ring.
      - intros l m Hb. destruct (spherical_point q (in_r_s P t)) as [[s theta] phi].
        unfold angular_term. destruct (Hz l m Hb) as [-> ->].
        cbn [fadd fmul R_arith]. ring. }
    destruct xyz as [q|qs]; cbn [finish is_scalar atleast_2d map pointwise].
    + now rewrite E.
    + rewrite map_map. do 2 f_equal. apply map_ext. exact E.
  - rewrite outer_potential_finish by assumption.
    assert (E : forall q,
               fmul (fdiv (fmul (out_G P) (out_m_tot P t)) (out_r_s P t))
                 (double_sum (out_l_max P) (fun l m =>
                    let '(s, theta, phi) := spherical_point q (out_r_s P t) in
                    fmul (fpow s (- (Z.of_nat l + 1)))
                         (angular_term (out_Slm P t) (out_Tlm P t) (out_l_max P)
                                       theta phi l m))) = 0).
    { intros q.
      rewrite (double_sum_ext_bounded (out_l_max P) _ (fun _ _ => 0)).
      - rewrite double_sum_zero. cbn [fmul R_arith]. ring.
      - intros l m Hb. destruct (spherical_point q (out_r_s P t)) as [[s theta] phi].
        unfold angular_term. destruct (Hz l m Hb) as [-> ->].
        cbn [fadd fmul R_arith]. ring. }
    destruct xyz as [q|qs]; cbn [finish is_scalar atleast_2d map pointwise].
    + now rewrite E.
    + rewrite map_map. do 2 f_equal. apply map_ext. exact E.
Qed.
End MultipoleReal.

Section EvaluationErrors.
Context {F : Type} {arith : Arith F} {special : Special F}.

Lemma getitem2_two_axes (a : ndarray F) (r c l m : nat) :
  shape a = [r; c] -> exists v, getitem2 a l m = Returned v.
Proof. intros Ha. unfold getitem2. rewrite Ha. now eexists. Qed.

Lemma getitem2_few_axes (a : ndarray F) (l m : nat) :
  (List.length (shape a) < 2)%nat -> getitem2 a l m = Raised IndexError.
Proof.
  unfold getitem2. destruct (shape a) as [|r [|c rest]]; cbn [List.length];
    (reflexivity || lia).
Qed.

Lemma summation_over_total (n : nat) summand ls ms :
  (forall l m, exists row, summand l m = Returned row) ->
  exists ys, summation_over n summand ls ms = Returned ys.
Proof.
  intros Hs. unfold summation_over.
  destruct (mapM_total (fun lm => summand (fst lm) (snd lm)) (combine ls ms)) as [rows ->].
  - intros [l m]. apply Hs.
  - cbn [bind]. now eexists.
Qed.

Lemma summation_over_first_raises (n L : nat) summand ls ms e :
  tril_indices (L + 1) = (ls, ms) ->
  summand 0%nat 0%nat = Raised e ->
  summation_over n summand ls ms = Raised e.
Proof.
  intros Hlm H0. unfold summation_over.
  pose proof (tril_indices_combine (L + 1)) as Hc. rewrite Hlm in Hc.
  cbn [fst snd] in Hc. rewrite Hc.
  replace (L + 1)%nat with (S L) by lia.
  destruct (tril_pairs_head L) as [rest ->]. cbn [mapM fst snd].
  rewrite H0. reflexivity.
Qed.

(** Batched evaluation with two-dimensional coefficient arrays returns. *)
Ltac batch_returns :=
  cbn [atleast_2d is_scalar];
  match goal with
  | |- context [cartesian_to_normalized_spherical ?qs ?r] =>
      destruct (cartesian_to_normalized_spherical qs r) as [[? ?] ?]
  end;
  destruct (tril_indices _) as [? ?];
  match goal with
  | |- exists v, bind (summation_over ?n ?f ?ls ?ms) _ = _ =>
      let ys := fresh "ys" in
      let Ey := fresh "Ey" in
      destruct (summation_over_total n f ls ms) as [ys Ey];
      [ intros ? ?;
        match goal with
        | |- context [compute_Ylm ?l ?m ?th ?ph ?L] => destruct (compute_Ylm l m th ph L)
        end;
        repeat match goal with
               | H : shape ?a = [_; _] |- context [getitem2 ?a ?l ?m] =>
                   let v := fresh "v" in
                   let E := fresh "E" in
                   destruct (getitem2_two_axes a _ _ l m H) as [v E]; rewrite E;
                   cbn [bind]
               end;
        now eexists
      | rewrite Ey; cbn [bind finish]; now eexists ]
  end.

(** X6.  Whatever their sizes, non-empty two-dimensional coefficient arrays never make
    a batched evaluation fail (an index beyond the array is clamped into
    it): the evaluation returns, with exactly one value per position of the
    batch, none for the empty batch. *)
Theorem batch_evaluation_returns_one_value_per_point :
  (forall (P : MultipoleInnerPotential) qs t,
      matrix_shaped (in_Slm P t) -> matrix_shaped (in_Tlm P t) ->
      exists ys, inner_potential P (Batch qs) t = Returned (Values ys)
                 /\ List.length ys = List.length qs)
  /\ (forall (P : MultipoleOuterPotential) qs t,
      matrix_shaped (out_Slm P t) -> matrix_shaped (out_Tlm P t) ->
      exists ys, outer_potential P (Batch qs) t = Returned (Values ys)
                 /\ List.length ys = List.length qs)
  /\ (forall (P : MultipolePotential) qs t,
      matrix_shaped (mp_ISlm P t) -> matrix_shaped (mp_ITlm P t) ->
      matrix_shaped (mp_OSlm P t) -> matrix_shaped (mp_OTlm P t) ->
      exists ys, multipole_potential P (Batch qs) t = Returned (Values ys)
                 /\ List.length ys = List.length qs).
Proof.
  split; [|split].
  - intros P qs t [r [c [HS _]]] [r' [c' [HT _]]].
    assert (Hv : exists v, inner_potential P (Batch qs) t = Returned v).
    { unfold inner_potential. batch_returns. }
    destruct Hv as [v Hv].
    destruct (inner_batch_length P qs t v Hv) as [ys [-> Hl]]. now exists ys.
  - intros P qs t [r [c [HS _]]] [r' [c' [HT _]]].
    assert (Hv : exists v, outer_potential P (Batch qs) t = Returned v).
    { unfold outer_potential. batch_returns. }
    destruct Hv as [v Hv].
    destruct (outer_batch_length P qs t v Hv) as [ys [-> Hl]]. now exists ys.
  - intros P qs t [r1 [c1 [H1 _]]] [r2 [c2 [H2 _]]] [r3 [c3 [H3 _]]] [r4 [c4 [H4 _]]].
    assert (Hv : exists v, multipole_potential P (Batch qs) t = Returned v).
    { unfold multipole_potential. batch_returns. }
    destruct Hv as [v Hv].
    destruct (multipole_batch_length P qs t v Hv) as [ys [-> Hl]]. now exists ys.
Qed.

(** X7.  A coefficient value that is a scalar or one-dimensional at the
    time of evaluation makes the evaluation raise [IndexError], for every
    position argument: the first summand indexes it at [0, 0]. *)
Theorem evaluation_raises_IndexError_on_few_axes :
  (forall (P : MultipoleInnerPotential) xyz t,
      (List.length (shape (in_Slm P t)) < 2)%nat
      \/ (List.length (shape (in_Slm P t)) = 2%nat
          /\ (List.length (shape (in_Tlm P t)) < 2)%nat) ->
      inner_potential P xyz t = Raised IndexError)
  /\ (forall (P : MultipoleOuterPotential) xyz t,
      (List.length (shape (out_Slm P t)) < 2)%nat
      \/ (List.length (shape (out_Slm P t)) = 2%nat
          /\ (List.length (shape (out_Tlm P t)) < 2)%nat) ->
      outer_potential P xyz t = Raised IndexError)
  /\ (forall (P : MultipolePotential) xyz t,
      (List.length (shape (mp_ISlm P t)) < 2)%nat ->
      multipole_potential P xyz t = Raised IndexError).
Proof.
  split; [|split].
  - intros P xyz t Hbad. unfold inner_potential.
    destruct (cartesian_to_normalized_spherical _ _) as [[s theta] phi].
    destruct (tril_indices (in_l_max P + 1)) as [ls ms] eqn:Hlm.
    erewrite summation_over_first_raises; [reflexivity|exact Hlm|].
    destruct (compute_Ylm 0 0 theta phi (in_l_max P)) as [c sn].
    destruct Hbad as [HS|[HS HT]].
    + now rewrite getitem2_few_axes.
    + destruct (shape (in_Slm P t)) as [|r [|c' [|d rest]]] eqn:E; try discriminate.
      destruct (getitem2_two_axes _ _ _ 0%nat 0%nat E) as [v ->]. cbn [bind].
      now rewrite getitem2_few_axes.
  - intros P xyz t Hbad. unfold outer_potential.
    destruct (cartesian_to_normalized_spherical _ _) as [[s theta] phi].
    destruct (tril_indices (out_l_max P + 1)) as [ls ms] eqn:Hlm.
    erewrite summation_over_first_raises; [reflexivity|exact Hlm|].
    destruct (compute_Ylm 0 0 theta phi (out_l_max P)) as [c sn].
    destruct Hbad as [HS|[HS HT]].
    + now rewrite getitem2_few_axes.
    + destruct (shape (out_Slm P t)) as [|r [|c' [|d rest]]] eqn:E; try discriminate.
      destruct (getitem2_two_axes _ _ _ 0%nat 0%nat E) as [v ->]. cbn [bind].
      now rewrite getitem2_few_axes.
  - intros P xyz t Hbad. unfold multipole_potential.
    destruct (cartesian_to_normalized_spherical _ _) as [[s theta] phi].
    destruct (tril_indices (mp_l_max P + 1)) as [ls ms] eqn:Hlm.
    erewrite summation_over_first_raises; [reflexivity|exact Hlm|].
    destruct (compute_Ylm 0 0 theta phi (mp_l_max P)) as [c sn].
    now rewrite getitem2_few_axes.
Qed.
End EvaluationErrors.

(* ================================================================= *)
(** * Further properties of the Lagrange points *)

Section ClusterRealMore.
Open Scope R_scope.
Variables (Potential AbstractPos3D AbstractVel3D : Type).
Variable pos_to_quantity : AbstractPos3D -> Vec3 R.
Variable vel_to_quantity : AbstractVel3D -> Vec3 R.
Variable tidal_radius_king1962 : Potential -> Vec3 R -> Vec3 R -> R -> R -> R.

Lemma norm_nonneg (q : Vec3 R) : 0 <= vector_norm q.
Proof. unfold vector_norm. cbn [fsqrt R_arith]. apply sqrt_pos. Qed.

(** The norm of [q] scaled by [k] is [|k|] times the norm of [q]. *)
Lemma norm_vscale (q : Vec3 R) (k : R) :
  vector_norm (vscale q k) = Rabs k * vector_norm q.
Proof.
  unfold vector_norm, vscale. cbn [vx vy vz fsqrt fadd fmul R_arith].
  rewrite <- sqrt_Rsqr_abs, <- sqrt_mult_alt by apply Rle_0_sqr.
  f_equal. unfold Rsqr. ring.
Qed.

(** X8.  In exact arithmetic, for a nonzero position [x] at distance [r]
    from the host centre, [l1] lies at distance [|r - r_t|] and [l2] at
    distance [|r + r_t|] from the centre; with a non-negative tidal radius
    [l1] is the point closer to the host and [l2] the farther one, and with
    a zero tidal radius both are [x]. *)
Theorem lagrange_points_close_and_far
    (pot : Potential) (x : PosArg AbstractPos3D) (v : VelArg AbstractVel3D)
    (mass t : R) :
  let q := convert_pos pos_to_quantity x in
  let r_t := tidal_radius_king1962 pot q (convert_vel vel_to_quantity v) mass t in
  let lp := lagrange_points pos_to_quantity vel_to_quantity
                            tidal_radius_king1962 pot x v mass t in
  q <> mkVec3 0 0 0 ->
  vector_norm (l1 lp) = Rabs (vector_norm q - r_t)
  /\ vector_norm (l2 lp) = Rabs (vector_norm q + r_t)
  /\ (0 <= r_t -> vector_norm (l1 lp) <= vector_norm (l2 lp))
  /\ (r_t = 0 -> l1 lp = q /\ l2 lp = q).
Proof.
  intros q r_t lp Hq.
  pose proof (norm_nonzero q Hq) as Hn. pose proof (norm_nonneg q) as Hp.
  assert (E1 : l1 lp = vscale q (1 - r_t / vector_norm q)).
  { subst lp. unfold lagrange_points. cbn [l1]. fold q. fold r_t.
    unfold vsub, vscale, normalize_vector, vdivs.
    cbn [vx vy vz fsub fmul fdiv R_arith]. f_equal; field; exact Hn. }
  assert (E2 : l2 lp = vscale q (1 + r_t / vector_norm q)).
  { subst lp. unfold lagrange_points. cbn [l2]. fold q. fold r_t.
    unfold vadd, vscale, normalize_vector, vdivs.
    cbn [vx vy vz fadd fmul fdiv R_arith]. f_equal; field; exact Hn. }
  assert (N1 : vector_norm (l1 lp) = Rabs (vector_norm q - r_t)).
  { rewrite E1, norm_vscale.
    rewrite <- (Rabs_pos_eq (vector_norm q)) at 2 by exact Hp.
    rewrite <- Rabs_mult. f_equal. field. exact Hn. }
  assert (N2 : vector_norm (l2 lp) = Rabs (vector_norm q + r_t)).
  { rewrite E2, norm_vscale.
    rewrite <- (Rabs_pos_eq (vector_norm q)) at 2 by exact Hp.
    rewrite <- Rabs_mult. f_equal. field. exact Hn. }
  split; [exact N1|]. split; [exact N2|]. split.
  - intros Hr. rewrite N1, N2. rewrite (Rabs_pos_eq (vector_norm q + r_t)) by lra.
    unfold Rabs. destruct (Rcase_abs (vector_norm q - r_t)); lra.
  - intros Hr. rewrite E1, E2, Hr. unfold vscale. destruct q as [a b c].
    cbn [vx vy vz fmul R_arith]. split; f_equal; field; exact Hn.
Qed.
End ClusterRealMore.

Section ClusterBinary64More.
Variables (Potential AbstractPos3D AbstractVel3D : Type).
Variable pos_to_quantity : AbstractPos3D -> Vec3 binary64.
Variable vel_to_quantity : AbstractVel3D -> Vec3 binary64.
Variable tidal_radius_king1962 :
  Potential -> Vec3 binary64 -> Vec3 binary64 -> binary64 -> binary64 -> binary64.

Lemma b64_nan_mul (b : binary64) : fmul S754_nan b = S754_nan.
Proof. reflexivity. Qed.

Lemma b64_sub_nan (a : binary64) : fsub a S754_nan = S754_nan.
Proof. destruct a; reflexivity. Qed.

Lemma b64_add_nan (a : binary64) : fadd a S754_nan = S754_nan.
Proof. destruct a; reflexivity. Qed.

(** X9.  In binary64, for a progenitor at the host centre (every component
    of the position a zero of either sign) the unit vector is [0 / 0], and
    every component of [l1] and of [l2] is NaN, whatever the potential,
    velocity, mass, time and tidal radius; nothing is raised. *)
Theorem lagrange_points_at_the_centre_are_nan
    (pot : Potential) (x : PosArg AbstractPos3D) (v : VelArg AbstractVel3D)
    (mass t : binary64) (sx sy sz : bool) :
  convert_pos pos_to_quantity x
  = mkVec3 (F := binary64) (S754_zero sx) (S754_zero sy) (S754_zero sz) ->
  lagrange_points pos_to_quantity vel_to_quantity tidal_radius_king1962 pot x v mass t
  = mkL1L2 (mkVec3 (F := binary64) S754_nan S754_nan S754_nan)
           (mkVec3 (F := binary64) S754_nan S754_nan S754_nan).
Proof.
  intros Hx. unfold lagrange_points. cbv zeta. rewrite Hx.
  set (r_t := tidal_radius_king1962 _ _ _ _ _).
  assert (Hhat : normalize_vector
                   (mkVec3 (F := binary64) (S754_zero sx) (S754_zero sy) (S754_zero sz))
                 = mkVec3 (F := binary64) S754_nan S754_nan S754_nan).
  { destruct sx, sy, sz; reflexivity. }
  rewrite Hhat. unfold vsub, vadd, vscale. cbn [vx vy vz].
  rewrite b64_nan_mul. destruct sx, sy, sz; reflexivity.
Qed.
End ClusterBinary64More.

(* ================================================================= *)
(** * The relaxation time *)

Section RelaxationReal.
Open Scope R_scope.

Lemma literal_0_4 : lit_0_4 (F := R) = 4 / 10.
Proof. reflexivity. Qed.

(** X10.  In exact arithmetic, for positive cluster mass, half-mass radius,
    mean stellar mass and [G], the relaxation time is positive exactly when
    the cluster holds more than 2.5 mean stellar masses, and negative when
    it holds fewer ([log(0.4 N)] changes sign at [N = 2.5]). *)
Theorem relaxation_time_sign (Mc r_hm m_avg G : R) :
  0 < Mc -> 0 < r_hm -> 0 < m_avg -> 0 < G ->
  (25 / 10 * m_avg < Mc -> 0 < relaxation_time ln Mc r_hm m_avg G)
  /\ (Mc < 25 / 10 * m_avg -> relaxation_time ln Mc r_hm m_avg G < 0).
Proof.
  intros HM Hr Hm HG.
  assert (Hroot : 0 < lit_0_138 * sqrt (Mc * cube r_hm / G / square m_avg)).
  { apply Rmult_lt_0_compat.
    - unfold lit_0_138. cbn [fdiv of_Z R_arith R_literals]. lra.
    - apply sqrt_lt_R0. unfold cube, square. cbn [fmul R_arith].
      repeat apply Rdiv_lt_0_compat; repeat apply Rmult_lt_0_compat; assumption. }
  assert (HN : 0 < Mc / m_avg) by now apply Rdiv_lt_0_compat.
  assert (HNeq : Mc = Mc / m_avg * m_avg) by (field; lra).
  unfold relaxation_time. cbn [fdiv fmul fsqrt R_arith]. rewrite literal_0_4.
  split; intros Hcmp.
  - apply Rdiv_lt_0_compat; [exact Hroot|].
    rewrite <- ln_1. apply ln_increasing; [lra|]. nra.
  - apply Rdiv_pos_neg; [exact Hroot|].
    rewrite <- ln_1. apply ln_increasing; nra.
Qed.
End RelaxationReal.

(* ================================================================= *)
(** * The constant progenitor mass *)

Section ProgenitorMassProperties.

Lemma shr_1_even (p : positive) :
  shr_1 {| shr_m := Zpos (xO p); shr_r := false; shr_s := false |}
  = {| shr_m := Zpos p; shr_r := false; shr_s := false |}.
Proof. reflexivity. Qed.

(** [1.0 * m] is [m], bit for bit, for every binary64 value [m]. *)
Lemma b64_one_mul (m : binary64) :
  valid_binary prec64 emax64 m = true -> fmul b64_one m = m.
Proof.
  destruct m as [s|s| |s mx ex]; try reflexivity.
  cbn [valid_binary]. unfold bounded, canonical_mantissa. intros Hv.
  apply andb_true_iff in Hv. destruct Hv as [Hc Hb].
  apply Z.eqb_eq in Hc.
  change (fmul b64_one (S754_finite s mx ex))
    with (binary_round_aux prec64 emax64 s
            (Zpos (Pos.mul 4503599627370496 mx)) (Z.add (-52) ex) loc_Exact).
  cbn [Pos.mul].
  unfold binary_round_aux, shr_fexp.
  cbn [Zdigits2 digits2_pos shr_record_of_loc].
  assert (Hd : forall e, fexp prec64 emax64 e = Z.max (e - 53) (-1074)).
  { reflexivity. }
  rewrite Hd in Hc.
  match goal with
  | |- context [fexp prec64 emax64 ?e] =>
      replace (fexp prec64 emax64 e) with ex by (rewrite Hd; lia)
  end.
  replace (ex - (-52 + ex))%Z with 52%Z by lia.
  cbn [shr iter_pos]. rewrite !shr_1_even.
  cbn [shr_m loc_of_shr_record round_nearest_even Zdigits2 shr_record_of_loc].
  replace (-52 + ex + 52)%Z with ex by lia.
  replace (fexp prec64 emax64 (Z.pos (digits2_pos mx) + ex)) with ex
    by (rewrite Hd; lia).
  rewrite Z.sub_diag. cbn [shr shr_m].
  rewrite Hb. reflexivity.
Qed.
End ProgenitorMassProperties.

Section ProgenitorMassClaims.

(** X11.  In binary64, [ConstantMassProtenitor.__call__] returns an array of
    the shape of [t] whose every entry is [m_tot] itself, bit for bit
    ([1.0 * m_tot] is exact), whatever the time values. *)
Theorem constant_mass_is_m_tot_at_every_time
    (self : ConstantMassProtenitor binary64) (t : ndarray binary64) :
  valid_binary prec64 emax64 (cm_m_tot self) = true ->
  shape (constant_mass_call self t) = shape t
  /\ List.length (data (constant_mass_call self t)) = size_of (shape t)
  /\ Forall (fun m => m = cm_m_tot self) (data (constant_mass_call self t)).
Proof.
  intros Hv. unfold constant_mass_call, array_scale, ones. cbn [shape data].
  split; [reflexivity|]. split.
  - now rewrite length_map, repeat_length.
  - apply Forall_map. apply Forall_forall. intros x Hx.
    apply repeat_spec in Hx. subst x. apply b64_one_mul. exact Hv.
Qed.
End ProgenitorMassClaims.

(* ================================================================= *)
(** * Further properties of composite phase-space positions *)

Section CompositeLookup.
Variables (Component E : Type).

Lemma lookup_in (key : string) (d : CompositePhaseSpacePosition Component) :
  (forall v, lookup key d = Some v -> In (key, v) d)
  /\ (lookup key d = None <-> ~ In key (map fst d)).
Proof.
  induction d as [|[k v] d [IH1 IH2]]; cbn [lookup map fst In].
  - split; [discriminate|]. tauto.
  - destruct (String.eqb k key) eqn:Ek.
    + apply String.eqb_eq in Ek. subst k. split.
      * intros v' Hv. injection Hv as <-. now left.
      * split; [discriminate|]. intros Hn. exfalso. apply Hn. now left.
    + apply String.eqb_neq in Ek. split.
      * intros v' Hv. right. now apply IH1.
      * rewrite IH2. tauto.
Qed.

(** X12.  [__getitem__] with a name returns the component stored under that
    name, and raises [KeyError] exactly when no component has it. *)
Theorem getitem_str_finds_the_named_component
    (self : CompositePhaseSpacePosition Component) (key : string) :
  (forall v, getitem_str E self key = Ok v -> In (key, v) self)
  /\ (getitem_str E self key = Err (KeyError key)
      <-> ~ In key (map fst self))
  /\ (forall x, getitem_str E self key = Err x -> x = KeyError key).
Proof.
  unfold getitem_str. destruct (lookup_in key self) as [H1 H2].
  destruct (lookup key self) as [v|] eqn:El.
  - split; [|split].
    + intros v' Ev. injection Ev as <-. now apply H1.
    + split; [discriminate|]. intros Hn. apply H2 in Hn. discriminate.
    + discriminate.
  - split; [|split].
    + discriminate.
    + split; [intros _; now apply H2|reflexivity].
    + intros x Ex. now injection Ex as <-.
Qed.

End CompositeLookup.

Section CompositeProperties.
Variables (Component E Key Units PositionCls ComponentShapeTuple : Type).
Variable component_len : Component -> nat.
Variable component_shape : Component -> list nat.
Variable component_shape_tuple : Component -> ComponentShapeTuple.
Variable component_getitem : Component -> Key -> result E Component.
Variable component_to_units : Component -> Units -> result E Component.
Variable component_represent_as :
  Component -> PositionCls -> PositionCls -> result E Component.
Variable differential_cls_of : PositionCls -> PositionCls.

Lemma rebuild_ok (f : Component -> result E Component)
    (d d' : CompositePhaseSpacePosition Component) :
  rebuild f d = Ok d' ->
  map fst d' = map fst d
  /\ forall key,
       getitem_str E d' key
       = rbind (getitem_str E d key) (fun v => component_result (f v)).
Proof.
  revert d'. induction d as [|[k v] d IH]; intros d' Hr; cbn [rebuild] in Hr.
  - injection Hr as <-. split; [reflexivity|]. intros key. reflexivity.
  - destruct (f v) as [v'|e] eqn:Ev; [|discriminate].
    destruct (rebuild f d) as [rest|x]; cbn [rbind] in Hr; [|discriminate].
    injection Hr as <-. destruct (IH rest eq_refl) as [IHk IHl].
    split; [cbn [map fst]; now rewrite IHk|].
    intros key. unfold getitem_str. cbn [lookup].
    destruct (String.eqb k key).
    + cbn [rbind]. now rewrite Ev.
    + apply IHl.
Qed.

Lemma rebuild_err (f : Component -> result E Component)
    (d : CompositePhaseSpacePosition Component) x :
  rebuild f d = Err x ->
  exists k v e, In (k, v) d /\ f v = Err e /\ x = ComponentRaised e.
Proof.
  induction d as [|[k v] d IH]; cbn [rebuild]; [discriminate|].
  destruct (f v) as [v'|e] eqn:Ev.
  - destruct (rebuild f d) as [rest|x']; cbn [rbind]; [discriminate|].
    intros Hx. injection Hx as <-. destruct (IH eq_refl) as [k' [w [e [Hin [Hf Hx]]]]].
    exists k', w, e. split; [now right|]. now split.
  - intros Hx. injection Hx as <-. exists k, v, e. split; [now left|]. now split.
Qed.

(** X13.  Slicing ([__getitem__] with a key that is not a name), [to_units]
    and [represent_as] keep the component names and their order, and
    commute with access by name: the component of the result under a name
    is the sliced (converted, re-represented) component of the original
    under that name.  When they raise, it is the exception of one of the
    components. *)
Theorem componentwise_methods_keep_names_and_commute_with_lookup
    (self : CompositePhaseSpacePosition Component) :
  (forall key c',
      getitem_key component_getitem self key = Ok c' ->
      map fst c' = map fst self
      /\ forall name,
           getitem_str E c' name
           = rbind (getitem_str E self name)
                   (fun v => component_result (component_getitem v key)))
  /\ (forall units c',
      to_units component_to_units self units = Ok c' ->
      map fst c' = map fst self
      /\ forall name,
           getitem_str E c' name
           = rbind (getitem_str E self name)
                   (fun v => component_result (component_to_units v units)))
  /\ (forall position_cls differential c',
      represent_as component_represent_as differential_cls_of self
                   position_cls differential = Ok c' ->
      map fst c' = map fst self
      /\ forall name,
           getitem_str E c' name
           = rbind (getitem_str E self name)
                   (fun v => component_result
                               (component_represent_as v position_cls
                                  (match differential with
                                   | None => differential_cls_of position_cls
                                   | Some d => d
                                   end))))
  /\ (forall key x,
      getitem_key component_getitem self key = Err x ->
      exists name v e, In (name, v) self /\ component_getitem v key = Err e
                       /\ x = ComponentRaised e)
  /\ (forall units x,
      to_units component_to_units self units = Err x ->
      exists name v e, In (name, v) self /\ component_to_units v units = Err e
                       /\ x = ComponentRaised e).
Proof.
  split; [|split; [|split; [|split]]].
  - intros key c' Hc. now apply rebuild_ok.
  - intros units c' Hc. now apply rebuild_ok.
  - intros position_cls differential c' Hc.
    apply (rebuild_ok _ _ _ Hc).
  - intros key x Hx. now apply rebuild_err in Hx.
  - intros units x Hx. now apply rebuild_err in Hx.
Qed.

End CompositeProperties.

Lemma broadcast_dim_same (a : nat) : broadcast_dim a a = Some a.
Proof. unfold broadcast_dim. now rewrite Nat.eqb_refl. Qed.

Lemma broadcast_rev_same (s : list nat) : broadcast_rev s s = Some s.
Proof.
  induction s as [|a s IH]; [reflexivity|].
  cbn [broadcast_rev]. now rewrite broadcast_dim_same, IH.
Qed.

Lemma broadcast2_same (s : list nat) : broadcast2 s s = Some s.
Proof.
  unfold broadcast2. rewrite broadcast_rev_same. cbn [option_map].
  now rewrite rev_involutive.
Qed.

Lemma broadcast2_nil (s : list nat) : broadcast2 [] s = Some s.
Proof.
  unfold broadcast2. cbn [rev].
  replace (broadcast_rev [] (rev s)) with (Some (rev s))
    by (destruct (rev s); reflexivity).
  cbn [option_map]. now rewrite rev_involutive.
Qed.

Lemma broadcast_shapes_from_same (s : list nat) (shapes : list (list nat)) :
  Forall (fun s' => s' = s) shapes -> broadcast_shapes_from s shapes = Some s.
Proof.
  induction 1 as [|s' shapes -> _ IH]; [reflexivity|].
  cbn [broadcast_shapes_from]. now rewrite broadcast2_same.
Qed.

Lemma broadcast_shapes_same (s : list nat) (shapes : list (list nat)) :
  shapes <> [] -> Forall (fun s' => s' = s) shapes -> broadcast_shapes shapes = Some s.
Proof.
  intros Hne Hall. destruct Hall as [|s' shapes -> Hall]; [contradiction|].
  unfold broadcast_shapes. cbn [broadcast_shapes_from]. rewrite broadcast2_nil.
  now apply broadcast_shapes_from_same.
Qed.

Section CompositeShape.
Variables (Component E ComponentShapeTuple : Type).
Variable component_len : Component -> nat.
Variable component_shape : Component -> list nat.
Variable component_shape_tuple : Component -> ComponentShapeTuple.

Lemma composite_len_uniform (self : CompositePhaseSpacePosition Component) (n : nat) :
  (forall w, In w (values self) -> component_len w = n) ->
  composite_len component_len self
  = (List.length self * match n with O => 1 | S _ => n end)%nat.
Proof.
  intros Hlen. unfold composite_len, py_sum. rewrite py_sum_from. cbn [Nat.add].
  unfold values in *.
  induction self as [|[k w] rest IH]; [reflexivity|].
  cbn [map snd List.length Nat.mul].
  change (list_sum (?x :: ?l)) with (x + list_sum l)%nat.
  rewrite int_or_one, (Hlen w) by now left.
  rewrite IH; [reflexivity|].
  intros w' Hw'. apply Hlen. now right.
Qed.

(** A component's length is the first entry of its batch shape, 0 for a
    scalar. *)
Hypothesis component_len_shape :
  forall w, component_len w = hd 0%nat (component_shape w).

Lemma shapes_all (self : CompositePhaseSpacePosition Component) (s : list nat) :
  (forall w, In w (values self) -> component_shape w = s) ->
  Forall (fun s' => s' = s) (map component_shape (values self)).
Proof.
  intros Hs. apply Forall_map. apply Forall_forall. exact Hs.
Qed.

(** X14.  For a composite with at least one component, [_shape_tuple]
    returns the batch shape [(len(self),)] when the components are all
    scalars (then [len(self)] is their number) and when they all have the
    same one-dimensional shape [(n,)] with [n >= 1] (then [len(self)] is
    their number times [n]); for components of shape [(0,)] the batch shape
    is [(0,)] although [len(self)] is the number of components. *)
Theorem shape_tuple_of_uniform_components
    (self : CompositePhaseSpacePosition Component) (w0 : Component) :
  hd_error (values self) = Some w0 ->
  ((forall w, In w (values self) -> component_shape w = []) ->
   shape_tuple E component_len component_shape component_shape_tuple self
   = Ok ([composite_len component_len self], component_shape_tuple w0)
   /\ composite_len component_len self = List.length self)
  /\ (forall n, (1 <= n)%nat ->
      (forall w, In w (values self) -> component_shape w = [n]) ->
      shape_tuple E component_len component_shape component_shape_tuple self
      = Ok ([composite_len component_len self], component_shape_tuple w0)
      /\ composite_len component_len self = (List.length self * n)%nat)
  /\ ((forall w, In w (values self) -> component_shape w = [0%nat]) ->
      shape_tuple E component_len component_shape component_shape_tuple self
      = Ok ([0%nat], component_shape_tuple w0)
      /\ composite_len component_len self = List.length self).
Proof.
  intros Hhd.
  assert (Hne : map component_shape (values self) <> []).
  { destruct (values self); [discriminate|]. discriminate. }
  split; [|split].
  - intros Hs.
    assert (Hlen : composite_len component_len self = List.length self).
    { rewrite (composite_len_uniform self 0); [lia|].
      intros w Hw. now rewrite component_len_shape, Hs. }
    split; [|exact Hlen]. unfold shape_tuple.
    rewrite (broadcast_shapes_same [] _ Hne (shapes_all self [] Hs)).
    destruct (values self) as [|w ws] eqn:Ev; [discriminate|].
    injection Hhd as ->. reflexivity.
  - intros n Hn Hs.
    assert (Hlen : composite_len component_len self = (List.length self * n)%nat).
    { rewrite (composite_len_uniform self n).
      - destruct n; [lia|reflexivity].
      - intros w Hw. now rewrite component_len_shape, Hs. }
    split; [|exact Hlen]. unfold shape_tuple.
    rewrite (broadcast_shapes_same [n] _ Hne (shapes_all self [n] Hs)).
    destruct (values self) as [|w ws] eqn:Ev; [discriminate|].
    injection Hhd as ->. cbn [but_last removelast last_dim last app].
    now rewrite Hlen.
  - intros Hs. split.
    + unfold shape_tuple.
      rewrite (broadcast_shapes_same [0%nat] _ Hne (shapes_all self [0%nat] Hs)).
      destruct (values self) as [|w ws] eqn:Ev; [discriminate|].
      injection Hhd as ->. cbn [but_last removelast last_dim last app].
      now rewrite Nat.mul_0_r.
    + rewrite (composite_len_uniform self 0); [lia|].
      intros w Hw. now rewrite component_len_shape, Hs.
Qed.
End CompositeShape.

(* ================================================================= *)
(** * Instances of the properties above *)

Lemma potential_reads_lower_triangle_example :
  inner_potential (special := monopole_special)
    (mkInner 1%R (ConstantParameter 1%R) (ConstantParameter 1%R) 1
             (ConstantParameter dipole_S) (ConstantParameter dipole_S))
    (Single unit_x) 0%R
  = inner_potential (special := monopole_special)
      (mkInner 1%R (ConstantParameter 1%R) (ConstantParameter 1%R) 1
               (ConstantParameter dipole_S') (ConstantParameter dipole_S'))
      (Single unit_x) 0%R.
Proof.
  apply (proj1 (potential_reads_lower_triangle_only (F := R)
                  (special := monopole_special))); try reflexivity.
  intros l m Hb. cbn [in_l_max] in Hb.
  destruct l as [|[|l]], m as [|[|m]]; try lia; split; reflexivity.
Defined.



Lemma zero_coefficients_example :
  inner_potential (special := monopole_special)
    (mkInner 1%R (ConstantParameter 1%R) (ConstantParameter 1%R) 1
             (ConstantParameter dipole_zero) (ConstantParameter dipole_zero))
    (Batch [unit_x; unit_x]) 0%R
  = Returned (Values [0%R; 0%R]).
Proof.
  apply (proj1 (zero_coefficients_give_zero_potential monopole_special)
           (mkInner 1%R (ConstantParameter 1%R) (ConstantParameter 1%R) 1
                    (ConstantParameter dipole_zero) (ConstantParameter dipole_zero))
           (Batch [unit_x; unit_x]) 0%R); try reflexivity.
  intros l m Hb. cbn [in_l_max] in Hb.
  destruct l as [|[|l]], m as [|[|m]]; try lia; split; reflexivity.
Defined.

Lemma batch_evaluation_example :
  exists ys : list R,
    inner_potential (special := monopole_special)
      (mkInner 1%R (ConstantParameter 1%R) (ConstantParameter 1%R) 3
               (ConstantParameter S00_one) (ConstantParameter T00_zero))
      (Batch [unit_x; unit_x; unit_x]) 0%R
    = Returned (Values ys)
    /\ List.length ys = 3%nat.
Proof.
  apply (proj1 (batch_evaluation_returns_one_value_per_point (F := R)
                  (special := monopole_special)));
    exists 1%nat, 1%nat; repeat split; lia.
Defined.

Lemma evaluation_raises_IndexError_example :
  inner_potential (special := monopole_special)
    (mkInner 1%R (ConstantParameter 1%R) (ConstantParameter 1%R) 0
             (ConstantParameter (mkArray [] [1%R])) (ConstantParameter T00_zero))
    (Single unit_x) 0%R
  = Raised IndexError.
Proof.
  apply (proj1 (evaluation_raises_IndexError_on_few_axes (F := R)
                  (special := monopole_special))).
  left. cbn. lia.
Defined.

Lemma lagrange_points_close_and_far_example :
  let lp := lagrange_points (F := R) (Potential := unit) (fun q : Vec3 R => q)
              (fun p : Vec3 R => p) (fun _ _ _ _ _ => (1 / 2)%R) tt
              (PosQuantity _ unit_x) (VelQuantity _ (mkVec3 0 1 0)%R) 1%R 0%R in
  (vector_norm (l1 lp) <= vector_norm (l2 lp))%R.
Proof.
  intros lp.
  assert (Hq : unit_x <> mkVec3 0%R 0%R 0%R).
  { intros E. injection E as E. lra. }
  pose proof (lagrange_points_close_and_far unit (Vec3 R) (Vec3 R)
                (fun q => q) (fun p => p) (fun _ _ _ _ _ => (1 / 2)%R) tt
                (PosQuantity _ unit_x) (VelQuantity _ (mkVec3 0 1 0)%R)
                1%R 0%R Hq) as [_ [_ [T _]]].
  apply T. lra.
Defined.

Lemma lagrange_points_at_the_centre_example :
  lagrange_points (fun q : Vec3 binary64 => q) (fun p : Vec3 binary64 => p)
                  tidal_radius_tenth tt
                  (PosQuantity _ x_origin) (VelQuantity _ v_along_y) b64_one b64_zero
  = mkL1L2 (mkVec3 (F := binary64) S754_nan S754_nan S754_nan)
           (mkVec3 (F := binary64) S754_nan S754_nan S754_nan).
Proof.
  apply (lagrange_points_at_the_centre_are_nan unit (Vec3 binary64) (Vec3 binary64)
           (fun q => q) (fun p => p) tidal_radius_tenth tt
           (PosQuantity _ x_origin) (VelQuantity _ v_along_y) b64_one b64_zero
           false false false).
  reflexivity.
Defined.

Lemma lagrange_points_nonfinite_position_example :
  let lp := lagrange_points (fun q : Vec3 binary64 => q) (fun p : Vec3 binary64 => p)
              tidal_radius_tenth tt
              (PosQuantity _ (mkVec3 (F := binary64) (S754_infinity false)
                                     b64_zero b64_zero))
              (VelQuantity _ v_along_y) b64_one b64_zero in
  is_finite (vx (l1 lp)) = false /\ is_finite (vx (l2 lp)) = false.
Proof.
  apply (lagrange_points_nonfinite_position unit (Vec3 binary64) (Vec3 binary64)
           (fun q => q) (fun p => p) tidal_radius_tenth tt
           (PosQuantity _ (mkVec3 (F := binary64) (S754_infinity false)
                                  b64_zero b64_zero))
           (VelQuantity _ v_along_y) b64_one b64_zero (@vx binary64)).
  - left. reflexivity.
  - reflexivity.
Defined.

Lemma lagrange_points_nonfinite_radius_example :
  let lp := lagrange_points (fun q : Vec3 binary64 => q) (fun p : Vec3 binary64 => p)
              (fun (_ : unit) (_ _ : Vec3 binary64) (_ _ : binary64) => S754_nan) tt
              (PosQuantity _ x_8kpc) (VelQuantity _ v_along_y) b64_one b64_zero in
  is_finite (vy (l1 lp)) = false /\ is_finite (vy (l2 lp)) = false.
Proof.
  apply (lagrange_points_nonfinite_radius unit (Vec3 binary64) (Vec3 binary64)
           (fun q => q) (fun p => p)
           (fun (_ : unit) (_ _ : Vec3 binary64) (_ _ : binary64) => S754_nan) tt
           (PosQuantity _ x_8kpc) (VelQuantity _ v_along_y) b64_one b64_zero
           (@vy binary64)).
  - right. left. reflexivity.
  - reflexivity.
Defined.

Lemma relaxation_time_sign_example :
  (0 < relaxation_time ln 10 1 1 1)%R /\ (relaxation_time ln 2 1 1 1 < 0)%R.
Proof.
  split.
  - apply (proj1 (relaxation_time_sign 10 1 1 1 ltac:(lra) ltac:(lra) ltac:(lra)
                    ltac:(lra))). lra.
  - apply (proj2 (relaxation_time_sign 2 1 1 1 ltac:(lra) ltac:(lra) ltac:(lra)
                    ltac:(lra))). lra.
Defined.

Lemma constant_mass_example :
  Forall (fun m => m = b64_tenth)
         (data (constant_mass_call (mkConstantMass b64_tenth)
                  (mkArray [2; 1]%nat [S754_nan; b64_one]))).
Proof.
  apply (constant_mass_is_m_tot_at_every_time (mkConstantMass b64_tenth)
           (mkArray [2; 1]%nat [S754_nan; b64_one]) eq_refl).
Defined.

Lemma getitem_str_example :
  In ("psp2"%string, 2%nat) [("psp1"%string, 1%nat); ("psp2"%string, 2%nat)]
  /\ getitem_str unit [("psp1"%string, 1%nat); ("psp2"%string, 2%nat)] "w"%string
     = Err (KeyError "w"%string).
Proof.
  destruct (getitem_str_finds_the_named_component nat unit
              [("psp1"%string, 1%nat); ("psp2"%string, 2%nat)] "psp2"%string)
    as [T1 _].
  destruct (getitem_str_finds_the_named_component nat unit
              [("psp1"%string, 1%nat); ("psp2"%string, 2%nat)] "w"%string)
    as [_ [T2 _]].
  split.
  - apply T1. reflexivity.
  - apply T2. cbn. intros [H|[H|H]]; try discriminate. exact H.
Defined.

Lemma componentwise_methods_example :
  let getitem (v : nat) (key : nat) : result unit nat := Ok (v + key)%nat in
  let self := [("psp1"%string, 1%nat); ("psp2"%string, 2%nat)] in
  getitem_str unit [("psp1"%string, 11%nat); ("psp2"%string, 12%nat)] "psp2"%string
  = rbind (getitem_str unit self "psp2"%string)
          (fun v => component_result (getitem v 10%nat)).
Proof.
  intros getitem self.
  destruct (componentwise_methods_keep_names_and_commute_with_lookup
              nat unit nat unit unit getitem (fun v _ => Ok v) (fun v _ _ => Ok v)
              (fun c => c) self) as [T _].
  apply (T 10%nat [("psp1"%string, 11%nat); ("psp2"%string, 12%nat)] eq_refl).
Defined.

Lemma shape_tuple_example :
  shape_tuple unit (fun s : list nat => hd 0%nat s) (fun s => s) (fun _ => tt)
              [("w1"%string, []); ("w2"%string, [])]
  = Ok ([2%nat], tt).
Proof.
  destruct (shape_tuple_of_uniform_components (list nat) unit unit
              (fun s => hd 0%nat s) (fun s => s) (fun _ => tt)
              (fun _ => eq_refl) [("w1"%string, []); ("w2"%string, [])] []
              eq_refl) as [T _].
  destruct T as [T _].
  - intros w [<-|[<-|[]]]; reflexivity.
  - exact T.
Defined.
